(** * ACE-Step helper scripts: dataset builder and channel fetcher

    A shallow embedding of [scripts/build_lora_dataset.py] and
    [scripts/download_channel_mp3.py], and the properties of the
    specification that these two scripts are expected to meet.

    Conventions of the embedding.
    - A Python [str] is the list of its code points ([pystr]); comparison,
      [strip], [split] and [Path.stem] are written out on that list.
    - A resolved absolute [Path] is the list of its components.
    - The output tree is a set of existing paths together with the datasets
      saved in it; the audio directory is given by its listing and the
      lyrics directory by the text of the files in it.  The three
      directories are taken to be disjoint, every existing transcript is a
      readable UTF-8 text file, and directories can be created.
    - The external tools are oracles: the transcoder answers a command line
      with an exit status, its standard error and whether a file is left at
      the output path; the downloader answers with a return code. *)

From Stdlib Require Import ZArith NArith Ascii String DecimalString.
From stdpp Require Import base list gmap sorting strings.

Local Open Scope N_scope.

(** ** Python strings *)

Module PyStr.

Definition pystr := list N.

(** A literal: the code points of an ASCII/Latin-1 string. *)
Definition py (s : string) : pystr := N_of_ascii <$> list_ascii_of_string s.

(** [bool(s)] for a string: non-empty. *)
Definition truthy (s : pystr) : bool :=
  match s with [] => false | _ :: _ => true end.

(** [str.isspace] on one code point, the set [Py_UNICODE_ISSPACE] of
    CPython. *)
Definition isspace (c : N) : bool :=
  ((0x09 <=? c) && (c <=? 0x0D)) || ((0x1C <=? c) && (c <=? 0x20))
  || (c =? 0x85) || (c =? 0xA0) || (c =? 0x1680)
  || ((0x2000 <=? c) && (c <=? 0x200A))
  || (c =? 0x2028) || (c =? 0x2029) || (c =? 0x202F) || (c =? 0x205F)
  || (c =? 0x3000).

Fixpoint lstrip (s : pystr) : pystr :=
  match s with
  | [] => []
  | c :: s' => if isspace c then lstrip s' else s
  end.

Definition rstrip (s : pystr) : pystr := reverse (lstrip (reverse s)).

(** [s.strip()] *)
Definition strip (s : pystr) : pystr := rstrip (lstrip s).

(** [s.split(sep)] for a one-character separator: always at least one
    piece, empty pieces are kept. *)
Fixpoint split (sep : N) (s : pystr) : list pystr :=
  match s with
  | [] => [[]]
  | c :: s' =>
      if c =? sep then [] :: split sep s'
      else match split sep s' with
           | p :: ps => (c :: p) :: ps
           | [] => [[c]]
           end
  end.

(** [sep.join(pieces)] *)
Fixpoint join (sep : pystr) (pieces : list pystr) : pystr :=
  match pieces with
  | [] => []
  | [p] => p
  | p :: ps => p ++ sep ++ join sep ps
  end.

(** [s.rfind(c)]: index of the last occurrence. *)
Fixpoint rfind (c : N) (s : pystr) : option nat :=
  match s with
  | [] => None
  | x :: s' =>
      match rfind c s' with
      | Some i => Some (S i)
      | None => if x =? c then Some 0%nat else None
      end
  end.

(** [name.endswith(ext)] *)
Definition endswith (name ext : pystr) : bool :=
  bool_decide (ext `suffix_of` name).

(** [s.startswith(p)] *)
Fixpoint startswith (s p : pystr) : bool :=
  match p, s with
  | [], _ => true
  | _ :: _, [] => false
  | c :: p', d :: s' => (c =? d) && startswith s' p'
  end.

(** [a <= b] on strings: lexicographic on code points. *)
Fixpoint str_leb (a b : pystr) : bool :=
  match a, b with
  | [], _ => true
  | _ :: _, [] => false
  | x :: a', y :: b' =>
      if x <? y then true else if x =? y then str_leb a' b' else false
  end.

Definition str_le (a b : pystr) : Prop := str_leb a b = true.

#[global] Instance str_le_dec a b : Decision (str_le a b).
Proof. unfold str_le. apply _. Defined.

(** [str(n)] for an integer. *)
Definition str_of_int (n : Z) : pystr := py (NilZero.string_of_int (Z.to_int n)).

Definition comma : N := 0x2C.
Definition dot : N := 0x2E.

End PyStr.

Import PyStr.

(** ** Paths, exceptions and the observable world *)

Definition Path := list pystr.

(** [str(p)] of an absolute path. *)
Definition path_str (p : Path) : pystr :=
  match p with
  | [] => py "/"
  | _ :: _ => concat ((λ c, py "/" ++ c) <$> p)
  end.

(** [p.parent] *)
Definition parent (p : Path) : Path := take (length p - 1) p.

(** [p / name] *)
Definition child (p : Path) (name : pystr) : Path := p ++ [name].

(** [PurePath.stem] of a file name: the name up to its last dot, unless
    that dot is the first or the last character (pathlib before Python
    3.14, where a trailing dot became a suffix of its own). *)
Definition stem (name : pystr) : pystr :=
  match rfind dot name with
  | Some i =>
      if bool_decide (0 < i < length name - 1)%nat then take i name else name
  | None => name
  end.

Inductive exn :=
  | RuntimeError (msg : pystr)
  | SystemExit (code : Z).

(** [str(e)] *)
Definition exn_str (e : exn) : pystr :=
  match e with
  | RuntimeError msg => msg
  | SystemExit code => str_of_int code
  end.

(** What a run does to the outside: lines printed and commands executed,
    oldest first. *)
Inductive event :=
  | Print (line : pystr)
  | Exec (cmd : list pystr).

Module Builder.

(** [{"style": recaption}] *)
Record recaption_dict := { style : pystr }.

(** One dataset row, the dict built at lines 65-72. *)
Record record := {
  keys : pystr;
  filename : pystr;
  tags : list pystr;
  norm_lyrics : pystr;
  recaption : option recaption_dict;
}.

(** The output tree: the paths that exist, and the dataset saved at a
    directory, with the trace of the run. *)
Record world := {
  paths : gset Path;
  datasets : gmap Path (list record);
  trace : list event;
}.

Definition emit (e : event) (w : world) : world :=
  {| paths := paths w; datasets := datasets w; trace := trace w ++ [e] |}.

Definition print (line : pystr) : world → world := emit (Print line).

(** All ancestors of [p], root first, [p] last. *)
Definition ancestors (p : Path) : list Path :=
  (λ n, take n p) <$> seq 0 (S (length p)).

(** [p.mkdir(parents=True, exist_ok=True)] *)
Definition mkdir_parents (p : Path) (w : world) : world :=
  {| paths := paths w ∪ list_to_set (ancestors p);
     datasets := datasets w; trace := trace w |}.

Definition touch (p : Path) (w : world) : world :=
  {| paths := paths w ∪ {[ p ]}; datasets := datasets w; trace := trace w |}.

(** [p.exists()] *)
Definition exists_ (p : Path) (w : world) : bool := bool_decide (p ∈ paths w).

(** The answer of one [subprocess.run(cmd, capture_output=True)] of the
    transcoder: return code, decoded standard error, and whether a file
    (complete or truncated) is left at the output path when it fails. *)
Record ffmpeg_outcome := {
  returncode : Z;
  stderr : pystr;
  leaves_output : bool;
}.

Definition transcoder := list pystr → ffmpeg_outcome.

Definition succeeded (o : ffmpeg_outcome) : bool := (returncode o =? 0)%Z.

Section build.

Context (ffmpeg : transcoder).

Definition ffmpeg_cmd (input_path output_path : Path) (sample_rate : Z)
  : list pystr :=
  [py "ffmpeg"; py "-y"; py "-i"; path_str input_path; py "-ar";
   str_of_int sample_rate; py "-ac"; py "2"; path_str output_path].

Definition run_ffmpeg (input_path output_path : Path) (sample_rate : Z)
    (w : world) : world * (exn + unit) :=
  let w := mkdir_parents (parent output_path) w in
  let cmd := ffmpeg_cmd input_path output_path sample_rate in
  let result := ffmpeg cmd in
  let w := emit (Exec cmd) w in
  let w := if succeeded result || leaves_output result
           then touch output_path w else w in
  if negb (returncode result =? 0)%Z then
    (w, inl (RuntimeError
               (py "ffmpeg failed for " ++ path_str input_path ++ py " -> "
                ++ path_str output_path ++ py ": " ++ stderr result)))
  else (w, inr tt).

(** The inputs of a run: the listing of [audio_dir] in the order the file
    system gives it, the text of each file of [lyrics_dir], and the
    arguments of [build_dataset]. *)
Context (listing : list pystr) (lyrics : gmap pystr pystr).
Context (audio_dir lyrics_dir output_dir : Path).
Context (tags_arg : list pystr) (recaption_arg : option pystr).
Context (audio_ext : pystr) (sample_rate : Z).

Definition converted_dir : Path := child output_dir (py "converted_audio").

Definition lyrics_name (base : pystr) : pystr := base ++ py ".txt".
Definition target_of (base : pystr) : Path :=
  child converted_dir (base ++ py ".wav").

(** [if recaption: record["recaption"] = {"style": recaption}] *)
Definition recaption_field : option recaption_dict :=
  match recaption_arg with
  | Some s => if truthy s then Some {| style := s |} else None
  | None => None
  end.

(** [sorted(audio_dir.glob(f"*{audio_ext}"))]: the entries whose name ends
    with the extension (taken literally: no glob metacharacter in it; the
    star also matches names that start with a dot), in ascending order of
    path, which for entries of one directory is the order of their names.
    The order on strings is total and antisymmetric, so the sorted list is
    the same for every sorting algorithm. *)
Definition audio_files : list pystr :=
  merge_sort str_le (filter (λ n, endswith n audio_ext = true) listing).

(** The body of the [for] loop, lines 44-73; [continue] returns the
    records unchanged. *)
Definition loop_body (st : world * list record) (name : pystr)
  : world * list record :=
  let '(w, records) := st in
  let audio_path := child audio_dir name in
  let base := stem name in
  let lyrics_path := child lyrics_dir (lyrics_name base) in
  match lyrics !! lyrics_name base with
  | None => (print (py "[skip] missing lyrics file for " ++ name) w, records)
  | Some content =>
      let target_audio := target_of base in
      let '(w, converted) :=
        if negb (exists_ target_audio w) then
          match run_ffmpeg audio_path target_audio sample_rate w with
          | (w, inr _) =>
              (print (py "[ok] converted " ++ name ++ py " -> "
                      ++ path_str target_audio) w, true)
          | (w, inl e) =>
              (print (py "[error] convert failed for " ++ name ++ py ": "
                      ++ exn_str e) w, false)
          end
        else (w, true) in
      if negb converted then (w, records)
      else
        let norm := strip content in
        if negb (truthy norm) then
          (print (py "[skip] empty lyrics in " ++ path_str lyrics_path) w,
           records)
        else
          (w, records ++ [{| keys := base;
                             filename := path_str target_audio;
                             tags := tags_arg;
                             norm_lyrics := norm;
                             recaption := recaption_field |}])
  end.

(** Lines 42-73: the scan. *)
Definition scan (w : world) : world * list record :=
  foldl loop_body (w, []) audio_files.

(** [Dataset.from_list(records).save_to_disk(str(output_dir))] *)
Definition save_to_disk (dir : Path) (records : list record) (w : world)
  : world :=
  {| paths := paths w; datasets := <[dir := records]> (datasets w);
     trace := trace w |}.

Definition no_pairs : exn :=
  RuntimeError (py "No valid audio/lyrics pairs found.").

Definition build_dataset (w : world) : world * (exn + unit) :=
  let '(w, records) := scan w in
  match records with
  | [] => (w, inl no_pairs)
  | _ :: _ =>
      let w := mkdir_parents output_dir w in
      let w := save_to_disk output_dir records w in
      (print (py "Saved dataset with "
              ++ str_of_int (Z.of_nat (length records))
              ++ py " items to " ++ path_str output_dir) w, inr tt)
  end.

End build.

(** The command line of the builder, with the defaults of [parse_args]. *)
Record args := {
  a_audio_dir : Path;
  a_lyrics_dir : Path;
  a_output_dir : Path;
  a_tags : pystr;
  a_recaption : option pystr;
  a_audio_ext : pystr;
  a_sample_rate : Z;
}.

Definition default_tags : pystr := py "pop,midtempo,warm,guitar".
Definition default_audio_ext : pystr := py ".mp3".
Definition default_sample_rate : Z := 48000.

(** [[t.strip() for t in s.split(",") if t.strip()]] *)
Fixpoint strip_pieces (pieces : list pystr) : list pystr :=
  match pieces with
  | [] => []
  | t :: rest =>
      if truthy (strip t) then strip t :: strip_pieces rest
      else strip_pieces rest
  end.

Definition parse_tags (s : pystr) : list pystr :=
  strip_pieces (split comma s).

Definition main (ffmpeg : transcoder) (listing : list pystr)
    (lyrics : gmap pystr pystr) (a : args) (w : world)
  : world * (exn + unit) :=
  let tags := parse_tags (a_tags a) in
  build_dataset ffmpeg listing lyrics (a_audio_dir a) (a_lyrics_dir a)
    (a_output_dir a) tags (a_recaption a) (a_audio_ext a) (a_sample_rate a) w.

End Builder.

Module Fetcher.

(** The fetcher sees the directories that exist and leaves a trace. *)
Record world := {
  dirs : gset Path;
  trace : list event;
}.

Definition emit (e : event) (w : world) : world :=
  {| dirs := dirs w; trace := trace w ++ [e] |}.

(** [path.mkdir(parents=True, exist_ok=True)] *)
Definition ensure_output_dir (path : Path) (w : world) : world :=
  {| dirs := dirs w ∪ list_to_set (Builder.ancestors path);
     trace := trace w |}.

(** The downloader: the [returncode] of [subprocess.run(cmd)]. *)
Definition downloader := list pystr → Z.

(** The command line of lines 35-52.  The script does not resolve
    [output_dir]; here it is given in absolute form, so that the template
    starts with a slash (for a relative directory it would start with the
    first component). *)
Definition ytdlp_cmd (channel_url : pystr) (output_dir : Path)
    (max_concurrent : Z) : list pystr :=
  let output_template :=
    path_str (child output_dir (py "%(title)s-%(id)s.%(ext)s")) in
  [py "yt-dlp"; py "--yes-playlist"; py "--ignore-errors";
   py "--no-abort-on-error"; py "--extract-audio"; py "--audio-format";
   py "mp3"; py "--audio-quality"; py "0"; py "--concurrent-fragments";
   str_of_int max_concurrent; py "--output"; output_template; channel_url].

Definition download_channel (ytdlp : downloader) (channel_url : pystr)
    (output_dir : Path) (max_concurrent : Z) (w : world)
  : world * (exn + unit) :=
  let w := ensure_output_dir output_dir w in
  let cmd := ytdlp_cmd channel_url output_dir max_concurrent in
  let w := emit (Print (py "Running: " ++ join (py " ") cmd)) w in
  let w := emit (Exec cmd) w in
  let returncode := ytdlp cmd in
  if negb (returncode =? 0)%Z then (w, inl (SystemExit returncode))
  else (w, inr tt).

Record args := {
  channel_url : pystr;
  output_dir : Path;
  max_concurrent : Z;
}.

Definition main (ytdlp : downloader) (a : args) (w : world)
  : world * (exn + unit) :=
  download_channel ytdlp (channel_url a) (output_dir a) (max_concurrent a) w.

(** The status with which the interpreter leaves when the script ends
    with [r]: 0 on return, the low eight bits of the code of a
    [SystemExit], 1 for any other uncaught exception.  This is the
    interpreter's doing, not the script's, and the truncation is that of
    POSIX; for a return and for the codes 1 to 255, the only ones used
    below, every platform reports the same status. *)
Definition exit_status (r : exn + unit) : Z :=
  match r with
  | inr _ => 0
  | inl (SystemExit code) => Z.land code 255
  | inl _ => 1
  end.

End Fetcher.

(** * Properties *)

(** ** Strings *)

(** [t] is [s] without its leading and trailing whitespace, said without
    [strip]: [s] is [t] between two runs of whitespace, and [t] neither
    starts nor ends with whitespace. *)
Definition stripped_of (s t : pystr) : Prop :=
  ∃ l r, s = l ++ t ++ r ∧
    Forall (λ c, isspace c = true) l ∧ Forall (λ c, isspace c = true) r ∧
    (∀ c, head t = Some c → isspace c = false) ∧
    (∀ c, last t = Some c → isspace c = false).

Section strings.

Implicit Types (s t p : pystr) (c : N).

Lemma truthy_false s : truthy s = false ↔ s = [].
Proof. destruct s; simpl; split; congruence. Qed.

Lemma truthy_true s : truthy s = true ↔ s ≠ [].
Proof. destruct s; simpl; split; congruence. Qed.

Lemma lstrip_nil_iff s : lstrip s = [] ↔ Forall (λ c, isspace c = true) s.
Proof.
  induction s as [|c s IH]; simpl.
  - split; [constructor | done].
  - destruct (isspace c) eqn:Hc.
    + rewrite IH. split; [by constructor | by inversion 1].
    + split; [done | inversion 1; congruence].
Qed.

Lemma lstrip_suffix s : lstrip s `suffix_of` s.
Proof.
  induction s as [|c s IH]; simpl; [done|].
  destruct (isspace c); [by apply suffix_cons_r | done].
Qed.

Lemma lstrip_head c s : isspace c = false → lstrip (c :: s) = c :: s.
Proof. intros Hc. simpl. by rewrite Hc. Qed.

Lemma lstrip_cases s :
  lstrip s = [] ∨ ∃ c u, lstrip s = c :: u ∧ isspace c = false.
Proof.
  induction s as [|c s IH]; simpl; [by left|].
  destruct (isspace c) eqn:Hc; [done | right; eauto].
Qed.

Lemma lstrip_app_keep c s u :
  isspace c = false → lstrip (s ++ c :: u) = lstrip s ++ c :: u.
Proof.
  intros Hc. induction s as [|x s IH]; simpl; [by rewrite Hc|].
  destruct (isspace x); [done | reflexivity].
Qed.

Lemma rstrip_nil : rstrip [] = [].
Proof. reflexivity. Qed.

Lemma rstrip_cons_keep c s : isspace c = false → rstrip (c :: s) = c :: rstrip s.
Proof.
  intros Hc. unfold rstrip. rewrite reverse_cons.
  rewrite (lstrip_app_keep c _ []) by done.
  by rewrite reverse_app.
Qed.

Lemma rstrip_nil_iff s : rstrip s = [] ↔ Forall (λ c, isspace c = true) s.
Proof.
  unfold rstrip. rewrite <- (Forall_reverse _ s), <- lstrip_nil_iff.
  split; intros H; [|by rewrite H].
  apply (f_equal reverse) in H. by rewrite reverse_involutive in H.
Qed.

Lemma rstrip_prefix s : rstrip s `prefix_of` s.
Proof.
  unfold rstrip. destruct (lstrip_suffix (reverse s)) as [k Hk].
  exists (reverse k). apply (inj reverse).
  by rewrite reverse_app, !reverse_involutive.
Qed.

(** A stripped string is empty exactly when the string is all
    whitespace. *)
Lemma strip_nil_iff s : strip s = [] ↔ Forall (λ c, isspace c = true) s.
Proof.
  unfold strip. rewrite rstrip_nil_iff. split.
  - intros H. destruct (lstrip_suffix s) as [k Hk].
    assert (lstrip s = []) as Hl.
    { destruct (lstrip_cases s) as [?|(c & u & Hcu & Hc)]; [done|].
      rewrite Hcu in H. inversion H; congruence. }
    by apply lstrip_nil_iff.
  - intros H. apply lstrip_nil_iff in H. by rewrite H.
Qed.

Lemma lstrip_idemp s : lstrip (lstrip s) = lstrip s.
Proof.
  induction s as [|x s IH]; simpl; [done|].
  destruct (isspace x) eqn:Hx; [done | simpl; by rewrite Hx].
Qed.

Lemma rstrip_idemp s : rstrip (rstrip s) = rstrip s.
Proof. unfold rstrip. by rewrite reverse_involutive, lstrip_idemp. Qed.

Lemma strip_idemp s : strip (strip s) = strip s.
Proof.
  unfold strip at 2 3.
  destruct (lstrip_cases s) as [->|(c & u & -> & Hc)]; [done|].
  rewrite rstrip_cons_keep by done. unfold strip.
  rewrite lstrip_head by done. rewrite rstrip_cons_keep by done.
  by rewrite rstrip_idemp.
Qed.

Lemma lstrip_split s :
  ∃ l, s = l ++ lstrip s ∧ Forall (λ c, isspace c = true) l.
Proof.
  induction s as [|c s (l & Hl & Hb)]; simpl; [by exists []|].
  destruct (isspace c) eqn:Hc; [|by exists []].
  exists (c :: l). split; [simpl; by f_equal | by constructor].
Qed.

Lemma rstrip_split s :
  ∃ r, s = rstrip s ++ r ∧ Forall (λ c, isspace c = true) r.
Proof.
  destruct (lstrip_split (reverse s)) as (l & Hl & Hb).
  exists (reverse l). split; [|by apply Forall_reverse].
  unfold rstrip. apply (inj reverse).
  by rewrite reverse_app, !reverse_involutive.
Qed.

Lemma lstrip_head_keep s c : head (lstrip s) = Some c → isspace c = false.
Proof.
  destruct (lstrip_cases s) as [->|(c' & u & -> & Hc)]; simpl; [done|].
  by intros [= <-].
Qed.

Lemma lstrip_keep s :
  (∀ c, head s = Some c → isspace c = false) → lstrip s = s.
Proof. destruct s as [|x s]; simpl; [done|]. intros H. by rewrite H. Qed.

Lemma lstrip_blank_app l s :
  Forall (λ c, isspace c = true) l → lstrip (l ++ s) = lstrip s.
Proof. induction 1 as [|x l Hx _ IH]; simpl; [done|]. by rewrite Hx. Qed.

(** [strip] gives the text between the leading and the trailing
    whitespace, and nothing else does. *)
Lemma strip_stripped s : stripped_of s (strip s).
Proof.
  destruct (lstrip_split s) as (l & Hl & Hbl).
  destruct (rstrip_split (lstrip s)) as (r & Hr & Hbr).
  exists l, r. unfold strip. split_and!; try done.
  - by rewrite <- Hr.
  - destruct (lstrip_cases s) as [->|(c' & u & -> & Hc)]; [done|].
    rewrite rstrip_cons_keep by done. simpl. by intros c [= <-].
  - intros c. unfold rstrip. rewrite last_reverse. apply lstrip_head_keep.
Qed.

Lemma stripped_of_strip s t : stripped_of s t → t = strip s.
Proof.
  intros (l & r & -> & Hl & Hr & Hh & Hla). unfold strip.
  rewrite lstrip_blank_app by done. destruct t as [|c u].
  - simpl. by rewrite (proj2 (lstrip_nil_iff r) Hr).
  - rewrite <- app_comm_cons, lstrip_head by (by apply Hh).
    unfold rstrip. rewrite app_comm_cons, reverse_app.
    rewrite lstrip_blank_app by (by apply Forall_reverse).
    rewrite lstrip_keep; [by rewrite reverse_involutive|].
    intros d. rewrite head_reverse. apply Hla.
Qed.

Lemma strip_elem c s : c ∈ strip s → c ∈ s.
Proof.
  unfold strip. intros H.
  destruct (rstrip_prefix (lstrip s)) as [k Hk].
  destruct (lstrip_suffix s) as [k' Hk'].
  rewrite Hk', Hk. set_solver.
Qed.

Lemma split_nonempty sep s : split sep s ≠ [].
Proof.
  destruct s as [|c s]; simpl; [done|].
  destruct (c =? sep); [done|]. by destruct (split sep s).
Qed.

(** Joining the pieces with the separator gives the string back, and no
    piece holds the separator: [split] cuts at every separator. *)
Lemma join_split sep s : join [sep] (split sep s) = s.
Proof.
  induction s as [|c s IH]; simpl; [done|].
  destruct (N.eqb_spec c sep) as [->|Hne].
  - pose proof (split_nonempty sep s).
    destruct (split sep s) eqn:E; [done|]. simpl in *. by rewrite IH.
  - pose proof (split_nonempty sep s).
    destruct (split sep s) as [|p ps] eqn:E; [done|].
    destruct ps; simpl in *; by rewrite <- IH.
Qed.

Lemma split_elem sep s p c : p ∈ split sep s → c ∈ p → c ∈ s ∧ c ≠ sep.
Proof.
  revert p. induction s as [|x s IH]; simpl; intros p Hp Hc.
  - apply list_elem_of_singleton in Hp as ->. by apply elem_of_nil in Hc.
  - destruct (N.eqb_spec x sep) as [->|Hne].
    + apply elem_of_cons in Hp as [->|Hp]; [by apply elem_of_nil in Hc|].
      destruct (IH p Hp Hc). split; [by right | done].
    + pose proof (split_nonempty sep s).
      destruct (split sep s) as [|q qs] eqn:E; [done|].
      apply elem_of_cons in Hp as [->|Hp].
      * apply elem_of_cons in Hc as [->|Hc]; [split; [by left | done]|].
        destruct (IH q) as [? ?]; [by left | done |]. split; [by right | done].
      * destruct (IH p) as [? ?]; [by right | done |]. split; [by right | done].
Qed.

Lemma split_no_sep sep t : sep ∉ t → split sep t = [t].
Proof.
  induction t as [|c t IH]; [done|].
  rewrite not_elem_of_cons. intros [Hne Ht]. simpl.
  destruct (N.eqb_spec c sep); [by subst|]. by rewrite (IH Ht).
Qed.

Lemma split_app_sep sep t s :
  sep ∉ t → split sep (t ++ sep :: s) = t :: split sep s.
Proof.
  induction t as [|c t IH]; simpl.
  - intros _. by rewrite N.eqb_refl.
  - rewrite not_elem_of_cons. intros [Hne Ht].
    destruct (N.eqb_spec c sep); [by subst|]. by rewrite (IH Ht).
Qed.

(** Splitting a joined list gives the list back when no piece holds the
    separator. *)
Lemma split_join sep (ts : list pystr) :
  ts ≠ [] → Forall (λ t, sep ∉ t) ts → split sep (join [sep] ts) = ts.
Proof.
  intros Hne Hall. induction Hall as [|t ts Ht Hts IH]; [done|].
  destruct ts as [|t' ts].
  - simpl. by apply split_no_sep.
  - change (join [sep] (t :: t' :: ts))
      with (t ++ sep :: join [sep] (t' :: ts)).
    rewrite split_app_sep by done. f_equal. by apply IH.
Qed.

End strings.

(** ** The order on names *)

Section order.

Implicit Types (a b c : pystr).

Ltac cmpN :=
  repeat match goal with
    | |- context [(?x <? ?y)] => destruct (N.ltb_spec x y)
    | |- context [(?x =? ?y)] => destruct (N.eqb_spec x y)
    | H : context [(?x <? ?y)] |- _ => destruct (N.ltb_spec x y)
    | H : context [(?x =? ?y)] |- _ => destruct (N.eqb_spec x y)
    end.

#[global] Instance str_le_refl : Reflexive str_le.
Proof.
  intros a. unfold str_le. induction a; simpl; [done|].
  by rewrite N.ltb_irrefl, N.eqb_refl.
Qed.

#[global] Instance str_le_total : Total str_le.
Proof.
  intros a. unfold str_le. induction a as [|x a IH]; intros [|y b]; simpl; auto.
  cmpN; auto; try lia; subst; apply IH.
Qed.

#[global] Instance str_le_antisym : AntiSymm (=) str_le.
Proof.
  intros a. unfold str_le.
  induction a as [|x a IH]; intros [|y b]; simpl; try done.
  cmpN; try done; try lia; intros Hab Hba; subst; f_equal; by apply IH.
Qed.

#[global] Instance str_le_trans : Transitive str_le.
Proof.
  intros a. unfold str_le.
  induction a as [|x a IH]; intros [|y b] [|z c]; simpl; try done.
  cmpN; try done; try lia; subst; apply IH.
Qed.

Lemma audio_sorted (l : list pystr) : StronglySorted str_le (merge_sort str_le l).
Proof. apply StronglySorted_merge_sort; apply _. Qed.

(** Sorting forgets the order in which the file system lists. *)
Lemma merge_sort_perm (l l' : list pystr) :
  l ≡ₚ l' → merge_sort str_le l = merge_sort str_le l'.
Proof.
  intros Hp. apply (StronglySorted_unique str_le); try apply audio_sorted.
  by rewrite !merge_sort_Permutation.
Qed.

End order.

(** ** Paths *)

Section paths.

Implicit Types (d : Path) (n m base : pystr).

Lemma path_str_child d n :
  path_str (child d n) = concat ((λ c, py "/" ++ c) <$> d) ++ py "/" ++ n.
Proof.
  unfold child, path_str. destruct (d ++ [n]) eqn:E.
  - by destruct d.
  - rewrite <- E, fmap_app, concat_app. simpl. by rewrite app_nil_r.
Qed.

Lemma path_str_child_inj d n m :
  path_str (child d n) = path_str (child d m) → n = m.
Proof.
  rewrite !path_str_child. intros H. apply app_inv_head in H.
  by apply app_inv_head in H.
Qed.

Lemma target_of_inj (out : Path) base base' :
  Builder.target_of out base = Builder.target_of out base' → base = base'.
Proof.
  unfold Builder.target_of, child. intros H.
  apply app_inv_head in H. injection H as H. by apply app_inv_tail in H.
Qed.

Lemma ancestors_length d p : p ∈ Builder.ancestors d → (length p ≤ length d)%nat.
Proof.
  unfold Builder.ancestors. intros (n & -> & _)%list_elem_of_fmap.
  rewrite length_take. lia.
Qed.

Lemma ancestors_self d : d ∈ Builder.ancestors d.
Proof.
  unfold Builder.ancestors. apply list_elem_of_fmap.
  exists (length d). split; [by rewrite firstn_all|].
  apply elem_of_seq. lia.
Qed.

Lemma ancestors_parent d n : d ∈ Builder.ancestors (child d n).
Proof.
  unfold Builder.ancestors, child. apply list_elem_of_fmap.
  exists (length d). split; [by rewrite take_app_length|].
  apply elem_of_seq. rewrite length_app. simpl. lia.
Qed.

Lemma parent_child d n : parent (child d n) = d.
Proof.
  unfold parent, child. rewrite length_app. simpl.
  replace (length d + 1 - 1)%nat with (length d) by lia.
  by rewrite take_app_length.
Qed.

End paths.

(** ** Lists *)

Lemma NoDup_fmap_eq {A B} (f : A → B) (l : list A) x y :
  NoDup (f <$> l) → x ∈ l → y ∈ l → f x = f y → x = y.
Proof.
  induction l as [|a l IH]; simpl; [by intros _ ?%elem_of_nil|].
  intros [Ha Hl]%NoDup_cons [->|Hx]%elem_of_cons [->|Hy]%elem_of_cons Hf;
    try done.
  - exfalso. apply Ha. rewrite Hf. by apply list_elem_of_fmap_2.
  - exfalso. apply Ha. rewrite <- Hf. by apply list_elem_of_fmap_2.
  - by apply IH.
Qed.

Lemma StronglySorted_sublist {A} (R : relation A) (l k : list A) :
  l `sublist_of` k → StronglySorted R k → StronglySorted R l.
Proof.
  induction 1 as [|x l k Hs IH|x l k Hs IH]; intros Hk; [done|..].
  - apply StronglySorted_inv in Hk as [Hk Hx]. constructor; [by apply IH|].
    rewrite Forall_forall in Hx |- *. intros y Hy. apply Hx.
    by eapply elem_of_sublist.
  - apply StronglySorted_inv in Hk as [Hk _]. by apply IH.
Qed.

(** ** The builder *)

Module BuilderFacts.
Import Builder.

Arguments py : simpl never.
Arguments loop_body : simpl never.
Arguments run_ffmpeg : simpl never.
Arguments ancestors : simpl never.
Arguments lyrics_name : simpl never.
Arguments target_of : simpl never.
Arguments path_str : simpl never.

(** The events a run added to the trace. *)
Definition new_events (w w' : world) : list event :=
  drop (length (trace w)) (trace w').

Section runs.

Context (ffmpeg : transcoder).
Context (listing : list pystr) (lyrics : gmap pystr pystr).
Context (audio_dir lyrics_dir output_dir : Path).
Context (tags_arg : list pystr) (recaption_arg : option pystr).
Context (audio_ext : pystr) (sample_rate : Z).

Abbreviation body := (loop_body ffmpeg lyrics audio_dir lyrics_dir output_dir
                    tags_arg recaption_arg sample_rate).
Abbreviation target := (target_of output_dir).

(** The command line for one audio file, and the transcoder's answer. *)
Definition cmd_of (name : pystr) : list pystr :=
  ffmpeg_cmd (child audio_dir name) (target (stem name)) sample_rate.

Definition answer (name : pystr) : ffmpeg_outcome := ffmpeg (cmd_of name).

(** The world after [run_ffmpeg] was called for [name]. *)
Definition converted (name : pystr) (w : world) : world :=
  (run_ffmpeg ffmpeg (child audio_dir name) (target (stem name))
     sample_rate w).1.

(** The row built for [name] from the text [content] of its transcript. *)
Definition row (name content : pystr) : record :=
  {| keys := stem name;
     filename := path_str (target (stem name));
     tags := tags_arg;
     norm_lyrics := strip content;
     recaption := recaption_field recaption_arg |}.

Definition ok_line (name : pystr) : pystr :=
  py "[ok] converted " ++ name ++ py " -> " ++ path_str (target (stem name)).

Definition error_line (name : pystr) : pystr :=
  py "[error] convert failed for " ++ name ++ py ": "
  ++ py "ffmpeg failed for " ++ path_str (child audio_dir name) ++ py " -> "
  ++ path_str (target (stem name)) ++ py ": " ++ stderr (answer name).

Definition missing_line (name : pystr) : pystr :=
  py "[skip] missing lyrics file for " ++ name.

Definition empty_line (name : pystr) : pystr :=
  py "[skip] empty lyrics in "
  ++ path_str (child lyrics_dir (lyrics_name (stem name))).

(** The world in which the transcript of [name] is read: unchanged when the
    converted file is there, after a successful conversion otherwise. *)
Definition ready (name : pystr) (w : world) : world :=
  if exists_ (target (stem name)) w then w
  else print (ok_line name) (converted name w).

Lemma converted_paths name w :
  paths (converted name w) =
    paths w ∪ list_to_set (ancestors (converted_dir output_dir))
    ∪ (if succeeded (answer name) || leaves_output (answer name)
       then {[ target (stem name) ]} else ∅).
Proof.
  unfold converted, run_ffmpeg, answer, cmd_of, target_of.
  rewrite parent_child.
  destruct (succeeded _ || leaves_output _);
    destruct (negb _); simpl; by rewrite ?union_empty_r_L.
Qed.

Lemma converted_trace name w :
  trace (converted name w) = trace w ++ [Exec (cmd_of name)].
Proof.
  unfold converted, run_ffmpeg, cmd_of.
  destruct (succeeded _ || leaves_output _); by destruct (negb _).
Qed.

Lemma converted_datasets name w : datasets (converted name w) = datasets w.
Proof.
  unfold converted, run_ffmpeg.
  destruct (succeeded _ || leaves_output _); by destruct (negb _).
Qed.

(** The four ways through the loop body. *)
Lemma body_missing w records name :
  lyrics !! lyrics_name (stem name) = None →
  body (w, records) name = (print (missing_line name) w, records).
Proof. intros H. unfold loop_body. by rewrite H. Qed.

Lemma body_failed w records name content :
  lyrics !! lyrics_name (stem name) = Some content →
  target (stem name) ∉ paths w →
  returncode (answer name) ≠ 0%Z →
  body (w, records) name =
    (print (error_line name) (converted name w), records).
Proof.
  intros Hl Ht Hrc. unfold loop_body. rewrite Hl.
  unfold exists_. rewrite bool_decide_eq_false_2 by done. simpl.
  unfold error_line, converted, answer, cmd_of, run_ffmpeg.
  apply Z.eqb_neq in Hrc. unfold answer, cmd_of in Hrc. by rewrite Hrc.
Qed.

Lemma body_ready w records name content :
  lyrics !! lyrics_name (stem name) = Some content →
  target (stem name) ∈ paths w ∨ returncode (answer name) = 0%Z →
  body (w, records) name =
    if truthy (strip content) then (ready name w, records ++ [row name content])
    else (print (empty_line name) (ready name w), records).
Proof.
  intros Hl Hok. unfold loop_body, ready. rewrite Hl.
  unfold exists_. case_bool_decide as Ht; simpl.
  - by destruct (truthy (strip content)).
  - destruct Hok as [?|Hrc]; [done|].
    unfold ok_line, converted, run_ffmpeg.
    unfold answer, cmd_of in Hrc. rewrite Hrc. simpl.
    by destruct (truthy (strip content)).
Qed.

(** What an iteration appends: the row of [name] when its transcript
    exists, the converted file is there or the transcoder exits with 0, and
    the stripped transcript is not empty. *)
Definition yields (name : pystr) (w : world) : option record :=
  match lyrics !! lyrics_name (stem name) with
  | Some content =>
      if (exists_ (target (stem name)) w || succeeded (answer name))
         && truthy (strip content)
      then Some (row name content) else None
  | None => None
  end.

(** The transcoder is run for [name]: it has a transcript and no
    converted file. *)
Definition attempted (name : pystr) (w : world) : bool :=
  bool_decide (is_Some (lyrics !! lyrics_name (stem name)))
  && negb (exists_ (target (stem name)) w).

Lemma body_records w records name :
  (body (w, records) name).2 = records ++ option_list (yields name w).
Proof.
  unfold yields. destruct (lyrics !! _) as [content|] eqn:Hl.
  - destruct (exists_ _ w || succeeded _) eqn:Hok.
    + rewrite (body_ready _ _ _ content) by
        (try done; apply orb_true_iff in Hok as [?%bool_decide_eq_true|?%Z.eqb_eq];
         auto).
      simpl. destruct (truthy _); simpl; by rewrite ?app_nil_r.
    + apply orb_false_iff in Hok as [?%bool_decide_eq_false ?%Z.eqb_neq].
      rewrite (body_failed _ _ _ content) by done. simpl. by rewrite app_nil_r.
  - rewrite body_missing by done. simpl. by rewrite app_nil_r.
Qed.

(** What an iteration does to the world: the saved datasets stay; without
    an attempt the paths stay and only lines are printed; with an attempt
    the paths are those after [run_ffmpeg] and the trace gains the command
    and then lines. *)
Lemma body_world w records name :
  let w' := (body (w, records) name).1 in
  datasets w' = datasets w ∧
  if attempted name w
  then paths w' = paths (converted name w) ∧
       ∃ lines, trace w' = trace w ++ Exec (cmd_of name) :: (Print <$> lines)
  else paths w' = paths w ∧
       ∃ lines, trace w' = trace w ++ (Print <$> lines).
Proof.
  unfold attempted. destruct (lyrics !! _) as [content|] eqn:Hl.
  2:{ rewrite body_missing by done. simpl.
      split_and!; try done. by exists [missing_line name]. }
  rewrite bool_decide_eq_true_2 by eauto. rewrite andb_true_l.
  destruct (exists_ _ w) eqn:Hex; cbn [negb].
  - rewrite (body_ready _ _ _ content)
      by (try done; left; by apply bool_decide_eq_true in Hex).
    unfold ready. rewrite Hex.
    destruct (truthy _); simpl; split_and!; try done.
    + by exists []; rewrite app_nil_r.
    + by exists [empty_line name].
  - apply bool_decide_eq_false in Hex.
    destruct (Z.eq_dec (returncode (answer name)) 0%Z) as [Hrc|Hrc].
    + rewrite (body_ready _ _ _ content) by auto.
      unfold ready, exists_. rewrite bool_decide_eq_false_2 by done.
      destruct (truthy _); simpl; rewrite converted_datasets, converted_trace,
        <- ?app_assoc; split_and!; try done.
      * by exists [ok_line name].
      * by exists [ok_line name; empty_line name].
    + rewrite (body_failed _ _ _ content) by done. simpl.
      rewrite converted_datasets, converted_trace, <- app_assoc.
      split_and!; try done. by exists [error_line name].
Qed.

Lemma yields_Some name w r :
  yields name w = Some r ↔
  ∃ content, lyrics !! lyrics_name (stem name) = Some content ∧
    (target (stem name) ∈ paths w ∨ returncode (answer name) = 0%Z) ∧
    strip content ≠ [] ∧ r = row name content.
Proof.
  unfold yields, exists_, succeeded.
  destruct (lyrics !! _) as [content|]; [|split; [done | by intros (? & ? & _)]].
  split.
  - destruct (_ || _) eqn:Hok; [|done]. destruct (truthy _) eqn:Ht; [|done].
    intros [= <-]. exists content. split_and!; try done.
    + apply orb_true_iff in Hok as [?%bool_decide_eq_true|?%Z.eqb_eq]; auto.
    + by apply truthy_true.
  - intros (c & [= <-] & Hok & Ht%truthy_true & ->). rewrite Ht, andb_true_r.
    replace (_ || _) with true; [done|]. symmetry. apply orb_true_iff.
    destruct Hok; [left; by apply bool_decide_eq_true | right; by apply Z.eqb_eq].
Qed.

Lemma body_paths_mono w records name :
  paths w ⊆ paths (body (w, records) name).1.
Proof.
  destruct (body_world w records name) as [_ Hw].
  destruct (attempted name w).
  - destruct Hw as [-> _]. rewrite converted_paths. set_solver.
  - by destruct Hw as [-> _].
Qed.

Lemma body_target w records name r :
  yields name w = Some r →
  target (stem name) ∈ paths (body (w, records) name).1.
Proof.
  intros (content & Hl & Hok & _)%yields_Some.
  destruct (body_world w records name) as [_ Hw].
  unfold attempted, exists_ in Hw. rewrite Hl in Hw.
  rewrite bool_decide_eq_true_2, andb_true_l in Hw by eauto.
  case_bool_decide as Ht; cbn [negb] in Hw; destruct Hw as [-> _]; [done|].
  destruct Hok as [?|Hrc]; [done|]. rewrite converted_paths.
  unfold succeeded. rewrite Hrc. simpl. set_solver.
Qed.

(** The world after an iteration does not depend on the records gathered
    so far. *)
Lemma body_shift w records name :
  body (w, records) name =
    ((body (w, []) name).1, records ++ (body (w, []) name).2).
Proof.
  destruct (lyrics !! lyrics_name (stem name)) as [content|] eqn:Hl.
  - destruct (decide (target (stem name) ∈ paths w
                      ∨ returncode (answer name) = 0%Z)) as [Hok|Hno].
    + rewrite !(body_ready _ _ _ content) by done.
      by destruct (truthy _); simpl; rewrite ?app_nil_r.
    + rewrite !(body_failed _ _ _ content) by tauto. simpl.
      by rewrite app_nil_r.
  - rewrite !body_missing by done. simpl. by rewrite app_nil_r.
Qed.

(** *** The scan as a fold *)

Abbreviation files := (audio_files listing audio_ext).
Abbreviation scan_ := (scan ffmpeg listing lyrics audio_dir lyrics_dir
                         output_dir tags_arg recaption_arg audio_ext
                         sample_rate).
Abbreviation build_ := (build_dataset ffmpeg listing lyrics audio_dir
                          lyrics_dir output_dir tags_arg recaption_arg
                          audio_ext sample_rate).

(** The state after the loop has gone through the names [l]. *)
Definition after (w : world) (l : list pystr) : world * list record :=
  foldl body (w, []) l.

Lemma scan_after w : scan_ w = after w files.
Proof. reflexivity. Qed.

Lemma after_snoc w l name :
  after w (l ++ [name]) = body (after w l) name.
Proof. unfold after. by rewrite foldl_app. Qed.

Lemma after_ind (P : list pystr → world → list record → Prop) w :
  P [] w [] →
  (∀ l name w' records,
     P l w' records →
     P (l ++ [name]) (body (w', records) name).1 (body (w', records) name).2) →
  ∀ l, P l (after w l).1 (after w l).2.
Proof.
  intros Hnil Hstep l. induction l as [|name l IH] using rev_ind; [done|].
  rewrite after_snoc. destruct (after w l) as [w' records]. by apply Hstep.
Qed.

Lemma after_app w l1 l2 :
  after w (l1 ++ l2) =
    ((after (after w l1).1 l2).1, (after w l1).2 ++ (after (after w l1).1 l2).2).
Proof.
  induction l2 as [|name l2 IH] using rev_ind.
  - rewrite app_nil_r. simpl. rewrite app_nil_r. by destruct (after w l1).
  - rewrite app_assoc, !after_snoc, IH.
    rewrite body_shift. destruct (after (after w l1).1 l2) as [w2 r2]. simpl.
    rewrite (body_shift w2 r2). simpl. by rewrite app_assoc.
Qed.

Lemma has_target_length base p :
  p ∈ ancestors (converted_dir output_dir) → p ≠ target base.
Proof.
  intros Hp%ancestors_length ->. revert Hp.
  unfold target_of, converted_dir, child. rewrite !length_app. simpl. lia.
Qed.

Lemma output_dir_not_target base p :
  p ∈ ancestors output_dir → p ≠ target base.
Proof.
  intros Hp%ancestors_length ->. revert Hp.
  unfold target_of, converted_dir, child. rewrite !length_app. simpl. lia.
Qed.

Lemma converted_has_dirs name w :
  converted_dir output_dir ∈ paths (converted name w) ∧
  output_dir ∈ paths (converted name w).
Proof.
  rewrite converted_paths. split.
  - apply elem_of_union. left. apply elem_of_union. right.
    apply elem_of_list_to_set, ancestors_self.
  - apply elem_of_union. left. apply elem_of_union. right.
    apply elem_of_list_to_set. unfold converted_dir. apply ancestors_parent.
Qed.

Lemma cmd_of_last name :
  last (cmd_of name) = Some (path_str (target (stem name))).
Proof. reflexivity. Qed.

Lemma target_str_inj base base' :
  path_str (target base) = path_str (target base') → base = base'.
Proof.
  unfold target_of. intros H%path_str_child_inj. by apply app_inv_tail in H.
Qed.

(** *** What a scan does to the world *)

Lemma after_world w l :
  let w' := (after w l).1 in
  datasets w' = datasets w ∧ paths w ⊆ paths w' ∧
  ∃ evs, trace w' = trace w ++ evs ∧
    (∀ cmd, Exec cmd ∈ evs →
       ∃ name, name ∈ l ∧ cmd = cmd_of name ∧
         is_Some (lyrics !! lyrics_name (stem name)) ∧
         target (stem name) ∉ paths w) ∧
    ((∀ cmd, Exec cmd ∉ evs) → paths w' = paths w) ∧
    (∀ cmd, Exec cmd ∈ evs →
       converted_dir output_dir ∈ paths w' ∧ output_dir ∈ paths w').
Proof.
  apply (after_ind (λ l w' _,
    datasets w' = datasets w ∧ paths w ⊆ paths w' ∧
    ∃ evs, trace w' = trace w ++ evs ∧
      (∀ cmd, Exec cmd ∈ evs →
         ∃ name, name ∈ l ∧ cmd = cmd_of name ∧
           is_Some (lyrics !! lyrics_name (stem name)) ∧
           target (stem name) ∉ paths w) ∧
      ((∀ cmd, Exec cmd ∉ evs) → paths w' = paths w) ∧
      (∀ cmd, Exec cmd ∈ evs →
         converted_dir output_dir ∈ paths w' ∧ output_dir ∈ paths w'))).
  { split_and!; try done. exists []. rewrite app_nil_r.
    split_and!; try done; intros cmd Hc; by apply elem_of_nil in Hc. }
  clear l. intros l name w' records (Hd & Hmono & evs & Ht & Hexec & Hnone & Hsome).
  pose proof (body_paths_mono w' records name) as Hstep.
  destruct (body_world w' records name) as [Hd' Hw].
  split_and!; [congruence | by etrans |].
  destruct (attempted name w') eqn:Hatt.
  - destruct Hw as [Hp (lines & Hl)].
    apply andb_true_iff in Hatt as [Hly%bool_decide_eq_true Hex%negb_true_iff].
    apply bool_decide_eq_false in Hex.
    exists (evs ++ Exec (cmd_of name) :: (Print <$> lines)).
    split_and!.
    + by rewrite Hl, Ht, <- app_assoc.
    + intros cmd [Hc|Hc]%elem_of_app.
      * destruct (Hexec cmd Hc) as (n & Hn & ?). exists n.
        split; [|done]. apply elem_of_app. by left.
      * apply elem_of_cons in Hc as [[= ->]|Hc].
        -- exists name. split_and!; try done.
           ++ apply elem_of_app. right. by left.
           ++ intros Hin. apply Hex. by apply Hmono.
        -- apply list_elem_of_fmap in Hc as (? & [=] & _).
    + intros Hno. exfalso. apply (Hno (cmd_of name)).
      apply elem_of_app. right. by left.
    + intros _ _. rewrite Hp. apply converted_has_dirs.
  - destruct Hw as [Hp (lines & Hl)].
    exists (evs ++ (Print <$> lines)).
    assert (∀ cmd, Exec cmd ∈ evs ++ (Print <$> lines) → Exec cmd ∈ evs) as Hin.
    { intros cmd [Hc|Hc]%elem_of_app; [done|].
      apply list_elem_of_fmap in Hc as (? & [=] & _). }
    split_and!.
    + by rewrite Hl, Ht, <- app_assoc.
    + intros cmd Hc%Hin. destruct (Hexec cmd Hc) as (n & Hn & ?).
      exists n. split; [|done]. apply elem_of_app. by left.
    + intros Hno. rewrite Hp. apply Hnone. intros cmd Hc. apply (Hno cmd).
      apply elem_of_app. by left.
    + intros cmd Hc%Hin. rewrite Hp. eauto.
Qed.

Lemma after_new_events w l evs :
  trace (after w l).1 = trace w ++ evs → new_events w (after w l).1 = evs.
Proof. unfold new_events. intros ->. by rewrite drop_app_length. Qed.

(** *** The records of a scan *)

(** A name is kept with the text [p.2] in a scan of [l] from [w]: its
    transcript has that text and is not blank, and when the loop reached
    it the converted file was there or the transcoder exited with 0. *)
Definition kept (w : world) (l : list pystr) (p : pystr * pystr) : Prop :=
  lyrics !! lyrics_name (stem p.1) = Some p.2 ∧
  strip p.2 ≠ [] ∧
  ∃ pre post, l = pre ++ p.1 :: post ∧
    (target (stem p.1) ∈ paths (after w pre).1
     ∨ returncode (answer p.1) = 0%Z).

Lemma kept_snoc w l name p : kept w l p → kept w (l ++ [name]) p.
Proof.
  intros (? & ? & pre & post & -> & ?). split_and!; try done.
  exists pre, (post ++ [name]). by rewrite <- app_assoc.
Qed.

(** Every record is the row of a name gone through, in the order of the
    names; the name was kept and its converted file exists in the end. *)
Lemma after_records w l :
  ∃ pairs : list (pystr * pystr),
    (after w l).2 = (λ p, row p.1 p.2) <$> pairs ∧
    pairs.*1 `sublist_of` l ∧
    Forall (λ p, kept w l p ∧ target (stem p.1) ∈ paths (after w l).1) pairs.
Proof.
  apply (after_ind (λ l w' records,
    after w l = (w', records) ∧
    ∃ pairs : list (pystr * pystr),
      records = (λ p, row p.1 p.2) <$> pairs ∧
      pairs.*1 `sublist_of` l ∧
      Forall (λ p, kept w l p ∧ target (stem p.1) ∈ paths w') pairs)).
  { split; [done|]. exists []. split_and!; [done | done | constructor]. }
  clear l. intros l name w' records (Heq & pairs & -> & Hsub & Hall).
  split; [by rewrite after_snoc, Heq; destruct (body _ _)|].
  pose proof (body_paths_mono w' ((λ p, row p.1 p.2) <$> pairs) name) as Hmono.
  assert (Forall (λ p, kept w (l ++ [name]) p ∧
                       target (stem p.1) ∈
                         paths (body (w', (λ p, row p.1 p.2) <$> pairs) name).1)
            pairs) as Hall'.
  { eapply Forall_impl; [exact Hall|]. simpl. intros p [? ?].
    split; [by apply kept_snoc | by apply Hmono]. }
  rewrite body_records.
  destruct (yields name w') as [r|] eqn:Hy; simpl.
  - pose proof (body_target w' ((λ p, row p.1 p.2) <$> pairs) name r Hy) as Ht.
    apply yields_Some in Hy as (content & Hl & Hok & Hne & ->).
    exists (pairs ++ [(name, content)]). split_and!.
    + by rewrite fmap_app.
    + rewrite fmap_app. by apply sublist_app.
    + apply Forall_app. split; [done|]. constructor; [|constructor].
      split; [|done]. split_and!; try done.
      exists l, []. split; [done|]. by rewrite Heq.
  - exists pairs. rewrite app_nil_r. split_and!; [done | | done].
    by apply sublist_inserts_r.
Qed.

(** A name with a non-blank transcript whose converted file exists or
    whose conversion succeeds gets its row. *)
Lemma after_keeps w l name content :
  name ∈ l →
  lyrics !! lyrics_name (stem name) = Some content →
  strip content ≠ [] →
  target (stem name) ∈ paths w ∨ returncode (answer name) = 0%Z →
  row name content ∈ (after w l).2.
Proof.
  intros Hin Hl Hne Hok. revert Hin.
  apply (after_ind (λ l w' records,
    paths w ⊆ paths w' ∧ (name ∈ l → row name content ∈ records))); clear l.
  { split; [done | by intros ?%elem_of_nil]. }
  intros l n w' records [Hmono IH].
  pose proof (body_paths_mono w' records n) as Hstep.
  split; [by etrans|]. rewrite body_records.
  intros [Hin|Hin%list_elem_of_singleton]%elem_of_app.
  - apply elem_of_app. left. by apply IH.
  - subst n. apply elem_of_app. right.
    assert (yields name w' = Some (row name content)) as ->.
    { apply yields_Some. exists content. split_and!; try done.
      destruct Hok; [left; set_solver | by right]. }
    simpl. by left.
Qed.

(** *** Where the paths of a scan come from *)

Definition left_file (name : pystr) : bool :=
  succeeded (answer name) || leaves_output (answer name).

Lemma converted_paths_elem name w p :
  p ∈ paths (converted name w) ↔
  p ∈ paths w ∨ p ∈ ancestors (converted_dir output_dir)
  ∨ (left_file name = true ∧ p = target (stem name)).
Proof.
  rewrite converted_paths. fold (left_file name).
  rewrite !elem_of_union, elem_of_list_to_set.
  destruct (left_file name).
  - rewrite elem_of_singleton. intuition auto.
  - rewrite elem_of_empty. intuition auto; discriminate.
Qed.

Lemma after_paths_origin w l p :
  p ∈ paths (after w l).1 →
  p ∈ paths w ∨ p ∈ ancestors (converted_dir output_dir)
  ∨ ∃ name, name ∈ l ∧ p = target (stem name) ∧ left_file name = true.
Proof.
  revert p. apply (after_ind (λ l w' _, ∀ p, p ∈ paths w' →
    p ∈ paths w ∨ p ∈ ancestors (converted_dir output_dir)
    ∨ ∃ name, name ∈ l ∧ p = target (stem name) ∧ left_file name = true));
    clear l; [by left|].
  intros l name w' records IH p.
  assert (∀ q, q ∈ paths w' →
    q ∈ paths w ∨ q ∈ ancestors (converted_dir output_dir)
    ∨ ∃ n, n ∈ l ++ [name] ∧ q = target (stem n) ∧ left_file n = true) as IH'.
  { intros q [?|[?|(n & ? & ?)]]%IH; auto. right. right. exists n.
    split; [|done]. apply elem_of_app. by left. }
  destruct (body_world w' records name) as [_ Hw].
  destruct (attempted name w'); destruct Hw as [-> _]; [|by apply IH'].
  intros [?|[?|[? ->]]]%converted_paths_elem; auto.
  right. right. exists name. split_and!; try done.
  apply elem_of_app. right. by left.
Qed.

Lemma after_paths_mono w l : paths w ⊆ paths (after w l).1.
Proof. by destruct (after_world w l) as (_ & ? & _). Qed.

Lemma after_paths_mono_app w l1 l2 :
  paths (after w l1).1 ⊆ paths (after w (l1 ++ l2)).1.
Proof. rewrite after_app. simpl. apply after_paths_mono. Qed.

(** A name with a transcript whose converted file is still missing in the
    end was given to the transcoder, which left nothing. *)
Lemma after_missing_target w l name :
  name ∈ l →
  is_Some (lyrics !! lyrics_name (stem name)) →
  target (stem name) ∉ paths (after w l).1 →
  (∀ p, p ∈ ancestors (converted_dir output_dir) → p ∈ paths (after w l).1)
  ∧ left_file name = false.
Proof.
  intros Hin Hl. revert Hin.
  apply (after_ind (λ l w' _, name ∈ l → target (stem name) ∉ paths w' →
    (∀ p, p ∈ ancestors (converted_dir output_dir) → p ∈ paths w')
    ∧ left_file name = false)); clear l; [by intros ?%elem_of_nil|].
  intros l n w' records IH Hin Hno.
  pose proof (body_paths_mono w' records n) as Hmono.
  assert (target (stem name) ∉ paths w') as Hno' by (intros ?; by apply Hno, Hmono).
  apply elem_of_app in Hin as [Hin|Hin%list_elem_of_singleton]; [|subst n].
  - destruct (IH Hin Hno') as [Hanc ?]. split; [|done].
    intros p Hp. by apply Hmono, Hanc.
  - destruct (body_world w' records name) as [_ Hw].
    unfold attempted, exists_ in Hw.
    rewrite bool_decide_eq_true_2, (bool_decide_eq_false_2 _ Hno') in Hw by done.
    destruct Hw as [Hp _]. rewrite Hp in Hno |- *. split.
    + intros p Hp'. apply converted_paths_elem. auto.
    + destruct (left_file name) eqn:E; [|done]. exfalso. apply Hno.
      apply converted_paths_elem. auto.
Qed.

(** *** Which transcoder run left a converted file *)

(** The events of the scan of a prefix are events of the whole scan. *)
Lemma after_events_app w l1 l2 e :
  e ∈ new_events w (after w l1).1 → e ∈ new_events w (after w (l1 ++ l2)).1.
Proof.
  destruct (after_world w l1) as (_ & _ & evs1 & Ht1 & _).
  destruct (after_world (after w l1).1 l2) as (_ & _ & evs2 & Ht2 & _).
  rewrite after_app. cbn [fst]. unfold new_events.
  rewrite Ht2, Ht1, <- app_assoc, !drop_app_length.
  intros He. apply elem_of_app. by left.
Qed.

(** An item with a transcript and no converted file when the loop reaches
    it is given to the transcoder. *)
Lemma after_attempt w pre name post :
  is_Some (lyrics !! lyrics_name (stem name)) →
  target (stem name) ∉ paths (after w pre).1 →
  Exec (cmd_of name) ∈ new_events w (after w (pre ++ name :: post)).1.
Proof.
  intros Hl Hno. rewrite (cons_middle name), app_assoc.
  apply after_events_app. rewrite after_snoc.
  destruct (after_world w pre) as (_ & _ & evs1 & Ht1 & _).
  destruct (after w pre) as [w1 r1]. cbn [fst] in Hno, Ht1.
  destruct (body_world w1 r1 name) as [_ Hw].
  unfold attempted, exists_ in Hw.
  rewrite bool_decide_eq_true_2, (bool_decide_eq_false_2 _ Hno) in Hw by done.
  destruct Hw as [_ (lines & Ht)]. unfold new_events.
  rewrite Ht, Ht1, <- app_assoc, drop_app_length.
  apply elem_of_app. right. by left.
Qed.

(** A converted file that a scan added was left by a transcoder run of
    that scan. *)
Lemma after_paths_exec w l p :
  p ∈ paths (after w l).1 →
  p ∈ paths w ∨ p ∈ ancestors (converted_dir output_dir)
  ∨ ∃ name, name ∈ l ∧ p = target (stem name) ∧ left_file name = true ∧
            Exec (cmd_of name) ∈ new_events w (after w l).1.
Proof.
  revert p. induction l as [|name l IH] using rev_ind; intros p; [by left|].
  pose proof (after_events_app w l [name]) as Hev.
  pose proof (after_attempt w l name []) as Hatt.
  rewrite after_snoc in Hev, Hatt |- *.
  destruct (after w l) as [w1 r1]. cbn [fst] in IH, Hev, Hatt.
  assert (p ∈ paths w1 →
    p ∈ paths w ∨ p ∈ ancestors (converted_dir output_dir)
    ∨ ∃ n, n ∈ l ++ [name] ∧ p = target (stem n) ∧ left_file n = true ∧
           Exec (cmd_of n) ∈ new_events w (body (w1, r1) name).1) as IH'.
  { intros [?|[?|(n & ? & ? & ? & ?)]]%IH; auto. right. right. exists n.
    split_and!; try done; [apply elem_of_app; by left | by apply Hev]. }
  destruct (body_world w1 r1 name) as [_ Hw].
  destruct (attempted name w1) eqn:Ha; destruct Hw as [Hp _]; rewrite Hp;
    [|done].
  apply andb_true_iff in Ha as [Hl%bool_decide_eq_true Hex%negb_true_iff].
  apply bool_decide_eq_false in Hex.
  intros [?|[?|[Hleft ->]]]%converted_paths_elem; auto.
  right. right. exists name. split_and!; try done.
  - apply elem_of_app. right. by left.
  - by apply Hatt.
Qed.

(** A file that a transcoder run of the scan left is there when the scan
    ends. *)
Lemma after_exec_left w l name :
  Exec (cmd_of name) ∈ new_events w (after w l).1 →
  left_file name = true →
  target (stem name) ∈ paths (after w l).1.
Proof.
  intros He Hleft. revert He.
  induction l as [|n l IH] using rev_ind.
  { unfold new_events. simpl. rewrite drop_all. by intros ?%elem_of_nil. }
  destruct (after_world w l) as (_ & _ & evs1 & Ht1 & _).
  rewrite (after_new_events _ _ _ Ht1) in IH.
  rewrite after_snoc. destruct (after w l) as [w1 r1]. cbn [fst] in IH, Ht1.
  destruct (body_world w1 r1 n) as [_ Hw]. unfold new_events.
  assert (∀ lines : list pystr, Exec (cmd_of name) ∉ Print <$> lines) as Hpr.
  { intros lines (? & [=] & _)%list_elem_of_fmap. }
  destruct (attempted n w1); destruct Hw as [Hp (lines & Ht)];
    rewrite Hp, Ht, Ht1, <- app_assoc, drop_app_length.
  - intros [Hin|Hin]%elem_of_app.
    + apply converted_paths_elem. left. by apply IH.
    + apply elem_of_cons in Hin as [Hin|Hin]; [|by apply Hpr in Hin].
      assert (cmd_of name = cmd_of n) as Heq by congruence.
      apply converted_paths_elem. right. right.
      assert (stem name = stem n) as Hs.
      { apply target_str_inj. pose proof (cmd_of_last name) as Hlast.
        rewrite Heq, cmd_of_last in Hlast. by injection Hlast. }
      split; [|by rewrite Hs].
      unfold left_file, answer in Hleft |- *. by rewrite <- Heq.
  - intros [Hin|Hin]%elem_of_app; [by apply IH | by apply Hpr in Hin].
Qed.

(** *** A second scan *)

(** A scan from a world [w2] that has the paths left by a first scan from
    [w], and no other converted file, gives the records of the first scan
    and creates nothing, provided that a failing transcoder leaves no file
    and that the audio files have distinct base names. *)
Lemma rerun w w2 :
  (∀ cmd, returncode (ffmpeg cmd) ≠ 0%Z → leaves_output (ffmpeg cmd) = false) →
  NoDup (stem <$> files) →
  paths (scan_ w).1 ⊆ paths w2 →
  (∀ base, target base ∈ paths w2 → target base ∈ paths (scan_ w).1) →
  ∀ pre post, files = pre ++ post →
    (after w2 pre).2 = (after w pre).2 ∧ paths (after w2 pre).1 = paths w2.
Proof.
  intros Hfail Hnd Hsub Htargets pre.
  induction pre as [|name pre IH] using rev_ind; intros post Hfiles; [done|].
  rewrite <- app_assoc in Hfiles. simpl in Hfiles.
  destruct (IH _ Hfiles) as [Hrec Hpaths].
  assert (name ∈ files) as Hname.
  { rewrite Hfiles. apply elem_of_app. right. by left. }
  assert (paths (after w pre).1 ⊆ paths (scan_ w).1) as Hpre.
  { rewrite scan_after, Hfiles. apply after_paths_mono_app. }
  pose proof (after_paths_mono w pre) as Hm.
  rewrite !after_snoc.
  destruct (after w2 pre) as [w2' r2], (after w pre) as [w1 r1].
  simpl in Hrec, Hpaths, Hpre, Hm. subst r2.
  assert (target (stem name) ∈ paths w2' →
          succeeded (answer name) = false →
          target (stem name) ∈ paths w1) as Hback.
  { rewrite Hpaths. intros Ht%Htargets Hs. rewrite scan_after in Ht.
    apply after_paths_origin in Ht as [Ht|[Ht|(n & Hn & Ht & Hleft)]].
    - by apply Hm.
    - by apply (has_target_length (stem name)) in Ht.
    - apply target_of_inj in Ht.
      assert (n = name) as -> by (by eapply (NoDup_fmap_eq stem)).
      unfold left_file in Hleft. rewrite Hs in Hleft. simpl in Hleft.
      unfold answer in Hleft, Hs. rewrite Hfail in Hleft; [done|].
      by apply Z.eqb_neq. }
  split.
  - rewrite !body_records. f_equal. f_equal. unfold yields.
    destruct (lyrics !! _) as [content|]; [|done].
    destruct (succeeded (answer name)) eqn:Hs; [by rewrite !orb_true_r|].
    rewrite !orb_false_r. unfold exists_.
    erewrite bool_decide_ext; [done|]. split.
    + intros ?. by apply Hback.
    + intros ?. rewrite Hpaths. by apply Hsub, Hpre.
  - destruct (body_world w2' r1 name) as [_ Hw].
    destruct (attempted name w2') eqn:Hatt; destruct Hw as [-> _]; [|done].
    apply andb_true_iff in Hatt as [Hl%bool_decide_eq_true Hex%negb_true_iff].
    apply bool_decide_eq_false in Hex. rewrite Hpaths in Hex.
    destruct (after_missing_target w files name Hname Hl) as [Hanc Hleft].
    { intros ?. by apply Hex, Hsub. }
    apply set_eq. intros p. rewrite converted_paths_elem, Hleft, Hpaths.
    split; [|by left]. intros [?|[?|[? _]]]; [done | | done].
    by apply Hsub, Hanc.
Qed.

(** *** The whole run *)

Definition saved_line (records : list record) : pystr :=
  py "Saved dataset with " ++ str_of_int (Z.of_nat (length records))
  ++ py " items to " ++ path_str output_dir.

Lemma build_unfold w :
  build_ w =
    match (scan_ w).2 with
    | [] => ((scan_ w).1, inl no_pairs)
    | _ :: _ =>
        (print (saved_line (scan_ w).2)
           (save_to_disk output_dir (scan_ w).2
              (mkdir_parents output_dir (scan_ w).1)), inr tt)
    end.
Proof. unfold build_dataset. by destruct (scan_ w) as [w' [|r records]]. Qed.

Lemma build_result w :
  (build_ w).2 = match (scan_ w).2 with [] => inl no_pairs | _ => inr tt end.
Proof. rewrite build_unfold. by destruct (scan_ w).2. Qed.

Lemma build_paths w p :
  p ∈ paths (build_ w).1 →
  p ∈ paths (scan_ w).1 ∨ p ∈ ancestors output_dir.
Proof.
  rewrite build_unfold. destruct (scan_ w).2; [by left|].
  unfold print, emit, save_to_disk, mkdir_parents. cbn [fst paths].
  by rewrite elem_of_union, elem_of_list_to_set.
Qed.

Lemma build_paths_mono w : paths (scan_ w).1 ⊆ paths (build_ w).1.
Proof.
  rewrite build_unfold. destruct (scan_ w).2; [done|].
  unfold print, emit, save_to_disk, mkdir_parents. cbn [fst paths].
  apply union_subseteq_l.
Qed.

(** The events of a run are those of its scan, then at most the summary
    line. *)
Lemma build_events w cmd :
  Exec cmd ∈ new_events w (build_ w).1 ↔ Exec cmd ∈ new_events w (scan_ w).1.
Proof.
  destruct (after_world w files) as (_ & _ & evs & Ht & _).
  rewrite scan_after, (after_new_events _ _ _ Ht).
  rewrite build_unfold, scan_after. unfold new_events.
  destruct (after w files).2; simpl; rewrite Ht.
  - by rewrite drop_app_length.
  - rewrite <- app_assoc, drop_app_length, elem_of_app, list_elem_of_singleton.
    split; [intros [?|[=]]; done | by left].
Qed.

Lemma build_events_incl w e :
  e ∈ new_events w (scan_ w).1 → e ∈ new_events w (build_ w).1.
Proof.
  destruct (after_world w files) as (_ & _ & evs & Ht & _).
  rewrite scan_after, (after_new_events _ _ _ Ht).
  rewrite build_unfold, scan_after. unfold new_events.
  destruct (after w files).2; simpl; rewrite Ht.
  - by rewrite drop_app_length.
  - rewrite <- app_assoc, drop_app_length, elem_of_app. by left.
Qed.

Lemma build_saved w w' :
  build_ w = (w', inr tt) →
  datasets w' !! output_dir = Some (scan_ w).2 ∧ (scan_ w).2 ≠ [].
Proof.
  rewrite build_unfold. destruct (scan_ w).2 eqn:E; [done|].
  intros [= <-]. simpl. by rewrite lookup_insert_eq.
Qed.

Lemma files_elem name :
  name ∈ files ↔ name ∈ listing ∧ endswith name audio_ext = true.
Proof.
  unfold audio_files. rewrite merge_sort_Permutation, list_elem_of_filter.
  tauto.
Qed.

Lemma lyrics_name_inj base base' :
  lyrics_name base = lyrics_name base' → base = base'.
Proof. unfold lyrics_name. apply app_inv_tail. Qed.

(** The records of a scan, one by one. *)
Lemma scan_record w r :
  r ∈ (scan_ w).2 →
  ∃ name content,
    r = row name content ∧ name ∈ files ∧ kept w files (name, content) ∧
    target (stem name) ∈ paths (scan_ w).1.
Proof.
  rewrite scan_after.
  destruct (after_records w files) as (pairs & -> & Hsub & Hall).
  intros ([name content] & -> & Hp)%list_elem_of_fmap.
  rewrite Forall_forall in Hall. destruct (Hall _ Hp) as [Hk Ht].
  exists name, content. split_and!; try done.
  eapply elem_of_sublist; [|exact Hsub].
  by apply (list_elem_of_fmap_2 fst) in Hp.
Qed.

(** *** Properties of one run *)

(** C1, as amended.  When the scan yields no record, [build_dataset]
    raises the [RuntimeError] "No valid audio/lyrics pairs found." and the
    dataset store is left as it was.  The paths of the output tree are
    untouched when the transcoder was not run; when it was run for some
    item, [output_dir] and its [converted_audio] directory exist, and the
    file that a transcoder run left at its output path is still there. *)
Theorem no_pairs_raises w :
  (scan_ w).2 = [] →
  (build_ w).2 = inl no_pairs ∧
  datasets (build_ w).1 = datasets w ∧
  ((∀ cmd, Exec cmd ∉ new_events w (build_ w).1) →
     paths (build_ w).1 = paths w) ∧
  (∀ cmd, Exec cmd ∈ new_events w (build_ w).1 →
     output_dir ∈ paths (build_ w).1 ∧
     converted_dir output_dir ∈ paths (build_ w).1) ∧
  (∀ name, Exec (cmd_of name) ∈ new_events w (build_ w).1 →
     left_file name = true →
     target (stem name) ∈ paths (build_ w).1).
Proof.
  intros Hnil.
  destruct (after_world w files) as (Hd & _ & evs & Ht & _ & Hnone & Hsome).
  pose proof (after_new_events _ _ _ Ht) as Hev.
  assert ((build_ w).1 = (scan_ w).1) as Hw
    by (by rewrite build_unfold, Hnil).
  pose proof (after_exec_left w files) as Hleft.
  rewrite build_result, Hnil, Hw, scan_after.
  split_and!; [done | done | | | exact Hleft]; rewrite Hev; [done|].
  intros cmd Hc. destruct (Hsome cmd Hc). done.
Qed.

(** C2, as amended.  Every record that a successful run persists comes
    from an audio file of the listing with the scanned extension: its key
    is the base name, its file name is the path of the converted file, and
    its text is the content of the transcript of that base name, which is
    not all whitespace, without its leading and trailing whitespace.  The
    converted file exists when the dataset is written; it was there when
    the loop reached the item or the transcoder run for the item exited
    with 0.  It existed before the run, or a transcoder run of this run
    for an audio file of that base name left it.  When failing transcoder
    runs leave no file, that run exited with 0; when the audio files have
    distinct base names, it is the run for this very audio file and exited
    with 0. *)
Theorem persisted_records_valid w w' recs r :
  build_ w = (w', inr tt) →
  datasets w' !! output_dir = Some recs →
  r ∈ recs →
  ∃ name content,
    name ∈ listing ∧ endswith name audio_ext = true ∧
    keys r = stem name ∧
    filename r = path_str (target (stem name)) ∧
    target (stem name) ∈ paths w' ∧
    (∃ pre post, files = pre ++ name :: post ∧
       (target (stem name) ∈ paths (after w pre).1
        ∨ returncode (answer name) = 0%Z)) ∧
    lyrics !! lyrics_name (stem name) = Some content ∧
    norm_lyrics r = strip content ∧
    strip content ≠ [] ∧
    stripped_of content (norm_lyrics r) ∧
    ¬ Forall (λ c, isspace c = true) content ∧
    (target (stem name) ∈ paths w ∨
     ∃ name', name' ∈ listing ∧ endswith name' audio_ext = true ∧
       stem name' = stem name ∧
       Exec (cmd_of name') ∈ new_events w w' ∧
       left_file name' = true) ∧
    ((∀ cmd, returncode (ffmpeg cmd) ≠ 0%Z →
             leaves_output (ffmpeg cmd) = false) →
     target (stem name) ∈ paths w ∨
     ∃ name', name' ∈ listing ∧ endswith name' audio_ext = true ∧
       stem name' = stem name ∧
       Exec (cmd_of name') ∈ new_events w w' ∧
       returncode (answer name') = 0%Z) ∧
    (NoDup (stem <$> files) →
     target (stem name) ∈ paths w ∨
     Exec (cmd_of name) ∈ new_events w w' ∧
     returncode (answer name) = 0%Z).
Proof.
  intros Hb Hd Hr. destruct (build_saved _ _ Hb) as [Hs _].
  rewrite Hs in Hd. injection Hd as <-.
  apply scan_record in Hr as (name & content & -> & Hn & (Hl & Hne & Hk) & Ht).
  pose proof Hn as [? ?]%files_elem.
  assert (w' = (build_ w).1) as -> by (by rewrite Hb).
  assert (target (stem name) ∈ paths w ∨
          ∃ name', name' ∈ listing ∧ endswith name' audio_ext = true ∧
            stem name' = stem name ∧
            Exec (cmd_of name') ∈ new_events w (build_ w).1 ∧
            left_file name' = true) as Horigin.
  { rewrite scan_after in Ht.
    apply after_paths_exec in Ht as [?|[Hanc|(n & Hin & Heq & Hleft & He)]].
    - by left.
    - by apply (has_target_length (stem name)) in Hanc.
    - right. exists n. apply files_elem in Hin as [? ?].
      apply target_of_inj in Heq. split_and!; try done.
      by apply build_events_incl. }
  exists name, content. split_and!; try done.
  - by apply build_paths_mono.
  - apply strip_stripped.
  - intros Hblank%strip_nil_iff. by apply Hne.
  - intros Hfail. destruct Horigin as [?|(n & ? & ? & ? & ? & Hleft)]; [by left|].
    right. exists n. split_and!; try done.
    destruct (Z.eq_dec (returncode (answer n)) 0%Z) as [?|Hrc]; [done|].
    unfold left_file, succeeded in Hleft. unfold answer in Hrc, Hleft.
    rewrite (Hfail _ Hrc), orb_false_r in Hleft. by apply Z.eqb_eq in Hleft.
  - intros Hnd. simpl in Hk. destruct Hk as (pre & post & Hfiles & Hok).
    destruct (decide (target (stem name) ∈ paths (after w pre).1)) as [Hin|Hno].
    + left.
      apply after_paths_origin in Hin as [?|[Hanc|(n & Hn' & Heq & _)]]; [done| |].
      * by apply (has_target_length (stem name)) in Hanc.
      * exfalso. apply target_of_inj in Heq.
        rewrite Hfiles, fmap_app in Hnd.
        apply NoDup_app in Hnd as (_ & Hdis & _).
        apply (Hdis (stem name)).
        -- rewrite Heq. by apply list_elem_of_fmap_2.
        -- rewrite fmap_cons. by left.
    + right. destruct Hok as [?|Hrc]; [done|]. split; [|done].
      apply build_events_incl. rewrite scan_after, Hfiles.
      apply after_attempt; [by eauto | done].
Qed.

(** C5.  An audio file whose base name has no transcript [B.txt] gets no
    record, and no transcoder command of the run has it as input. *)
Theorem missing_transcript_skipped w name :
  name ∈ listing → endswith name audio_ext = true →
  lyrics !! lyrics_name (stem name) = None →
  (∀ r, r ∈ (scan_ w).2 → keys r ≠ stem name) ∧
  (∀ cmd, Exec cmd ∈ new_events w (build_ w).1 →
     cmd !! 3%nat ≠ Some (path_str (child audio_dir name))).
Proof.
  intros _ _ Hnone. split.
  - intros r (n & content & -> & _ & (Hl & _) & _)%scan_record Hk.
    simpl in Hk, Hl. rewrite Hk in Hl. congruence.
  - intros cmd Hc%build_events.
    destruct (after_world w files) as (_ & _ & evs & Ht & Hexec & _).
    rewrite scan_after, (after_new_events _ _ _ Ht) in Hc.
    destruct (Hexec cmd Hc) as (n & _ & -> & [content Hl] & _).
    unfold cmd_of, ffmpeg_cmd. simpl. intros [= Hp].
    apply path_str_child_inj in Hp as ->. congruence.
Qed.

(** C6.  A transcript that is empty or all whitespace keeps its base name
    out of the records of the scan and out of the persisted collection,
    whatever the transcoder answers. *)
Theorem blank_transcript_excluded w (base content : pystr) :
  lyrics !! lyrics_name base = Some content →
  Forall (λ c, isspace c = true) content →
  (∀ r, r ∈ (scan_ w).2 → keys r ≠ base) ∧
  (∀ w' recs, build_ w = (w', inr tt) →
     datasets w' !! output_dir = Some recs →
     ∀ r, r ∈ recs → keys r ≠ base).
Proof.
  intros Hl Hblank%strip_nil_iff.
  assert (∀ r, r ∈ (scan_ w).2 → keys r ≠ base) as Hscan.
  { intros r (n & c & -> & _ & (Hl' & Hne & _) & _)%scan_record Hk.
    simpl in Hk, Hl', Hne. rewrite Hk in Hl'.
    assert (Some c = Some content) as [= ->]
      by (etrans; [symmetry; exact Hl' | exact Hl]).
    by apply Hne. }
  split; [done|]. intros w' recs Hb Hd.
  destruct (build_saved _ _ Hb) as [Hs _]. rewrite Hs in Hd.
  by injection Hd as <-.
Qed.

(** C8.  A record carries [{"style": v}] exactly when the caller gave the
    style [v] and [v] is not empty; with [None] or the empty string no
    record has the field. *)
Theorem style_iff_supplied w r :
  r ∈ (scan_ w).2 →
  recaption r = recaption_field recaption_arg ∧
  (∀ v, recaption r = Some {| style := v |} ↔
        recaption_arg = Some v ∧ v ≠ []) ∧
  (recaption_arg = None ∨ recaption_arg = Some [] → recaption r = None).
Proof.
  intros (n & c & -> & _)%scan_record. simpl. split; [done|].
  unfold recaption_field.
  destruct recaption_arg as [[|x s]|]; simpl; split;
    try (intros v; split; [intros [= <-] | intros [[= <-] ?]]); try done;
    try (intros [?|?]; done); try (intros v; split; [done | by intros [? ?]]).
Qed.

Lemma files_perm listing' :
  listing' ≡ₚ listing → audio_files listing' audio_ext = files.
Proof. intros Hp. unfold audio_files. apply merge_sort_perm. by rewrite Hp. Qed.

Lemma yields_succeeds w0 (name content : pystr) :
  lyrics !! lyrics_name (stem name) = Some content →
  strip content ≠ [] →
  returncode (answer name) = 0%Z →
  yields name w0 = Some (row name content).
Proof. intros. apply yields_Some. exists content. auto. Qed.

(** C3, as amended.  The records follow the audio file names (base name
    and extension together) in ascending order of code points, whatever
    order the file system lists them in; for [b.mp3], [a.mp3], [c.mp3]
    with valid transcripts the keys are [a], [b], [c]. *)
Theorem records_in_file_name_order w :
  (∃ names, keys <$> (scan_ w).2 = stem <$> names ∧
     names `sublist_of` files ∧ StronglySorted str_le names) ∧
  (∀ listing', listing' ≡ₚ listing →
     scan ffmpeg listing' lyrics audio_dir lyrics_dir output_dir tags_arg
       recaption_arg audio_ext sample_rate w = scan_ w) ∧
  (audio_ext = py ".mp3" →
   listing ≡ₚ [py "b.mp3"; py "a.mp3"; py "c.mp3"] →
   (∀ base, base ∈ [py "a"; py "b"; py "c"] →
      ∃ content, lyrics !! lyrics_name base = Some content ∧
                 strip content ≠ []) →
   (∀ cmd, returncode (ffmpeg cmd) = 0%Z) →
   keys <$> (scan_ w).2 = [py "a"; py "b"; py "c"]).
Proof.
  split_and!.
  - rewrite scan_after.
    destruct (after_records w files) as (pairs & -> & Hsub & _).
    exists pairs.*1. split_and!; [| done |].
    + rewrite <- !list_fmap_compose. by apply list_fmap_ext.
    + eapply StronglySorted_sublist; [exact Hsub | apply audio_sorted].
  - intros listing' Hp. unfold scan. by rewrite (files_perm _ Hp).
  - intros Hext Hp Hly Hok. rewrite scan_after.
    assert (files = [py "a.mp3"; py "b.mp3"; py "c.mp3"]) as Hfiles.
    { unfold audio_files.
      rewrite (merge_sort_perm _ _ (filter_Permutation _ _ _ Hp)).
      rewrite Hext. by vm_compute. }
    rewrite Hfiles.
    destruct (Hly (py "a")) as (ca & Ha & Hna); [set_solver|].
    destruct (Hly (py "b")) as (cb & Hb & Hnb); [set_solver|].
    destruct (Hly (py "c")) as (cc & Hc & Hnc); [set_solver|].
    change [py "a.mp3"; py "b.mp3"; py "c.mp3"]
      with ((([] ++ [py "a.mp3"]) ++ [py "b.mp3"]) ++ [py "c.mp3"]).
    rewrite !after_snoc.
    destruct (after w []) as [w0 r0] eqn:E0. injection E0 as <- <-.
    destruct (body (w, []) (py "a.mp3")) as [w1 r1] eqn:E1.
    apply (f_equal snd) in E1. rewrite body_records in E1.
    rewrite (yields_succeeds _ _ ca) in E1 by (done || apply Hok).
    destruct (body (w1, r1) (py "b.mp3")) as [w2 r2] eqn:E2.
    apply (f_equal snd) in E2. rewrite body_records in E2.
    rewrite (yields_succeeds _ _ cb) in E2 by (done || apply Hok).
    destruct (body (w2, r2) (py "c.mp3")) as [w3 r3] eqn:E3.
    apply (f_equal snd) in E3. rewrite body_records in E3.
    rewrite (yields_succeeds _ _ cc) in E3 by (done || apply Hok).
    simpl in *. by subst.
Qed.

Lemma build_succeeds w :
  (scan_ w).2 ≠ [] →
  ∃ w', build_ w = (w', inr tt) ∧
        datasets w' !! output_dir = Some (scan_ w).2.
Proof.
  intros Hne. rewrite build_unfold. destruct (scan_ w).2 eqn:E; [done|].
  eexists. split; [done|]. simpl. by rewrite lookup_insert_eq.
Qed.

Lemma after_record_name w l r :
  r ∈ (after w l).2 → ∃ name, name ∈ l ∧ keys r = stem name.
Proof.
  destruct (after_records w l) as (pairs & -> & Hsub & _).
  intros ([name content] & -> & Hp)%list_elem_of_fmap.
  exists name. split; [|done].
  eapply elem_of_sublist; [|exact Hsub].
  by apply (list_elem_of_fmap_2 fst) in Hp.
Qed.

(** C4, as amended.  A second run on the world left by the first does
    not run the transcoder for a base name whose converted file exists.
    When a failing transcoder leaves no file at the output path, answers
    the second run as it did the first, and the audio files have distinct
    base names, the second run gathers the same records in the same order,
    ends as the first did, and leaves store and paths as they were. *)
Theorem second_run_idempotent w :
  let first := build_ w in
  let second := build_ first.1 in
  (∀ base cmd,
     target base ∈ paths first.1 →
     Exec cmd ∈ new_events first.1 second.1 →
     last cmd ≠ Some (path_str (target base))) ∧
  ((∀ cmd, returncode (ffmpeg cmd) ≠ 0%Z → leaves_output (ffmpeg cmd) = false) →
   NoDup (stem <$> files) →
   (scan_ first.1).2 = (scan_ w).2 ∧
   second.2 = first.2 ∧
   datasets second.1 = datasets first.1 ∧
   paths second.1 = paths first.1).
Proof.
  cbv zeta. set (w1 := (build_ w).1). split.
  - intros base cmd Hex Hc%build_events.
    destruct (after_world w1 files) as (_ & _ & evs & Ht & Hexec & _).
    rewrite scan_after, (after_new_events _ _ _ Ht) in Hc.
    destruct (Hexec cmd Hc) as (n & _ & -> & _ & Hno).
    rewrite cmd_of_last. intros [= Heq%target_str_inj]. by subst base.
  - intros Hfail Hnd.
    destruct (rerun w w1 Hfail Hnd) with (pre := files) (post := @nil pystr)
      as [Hrec Hpaths].
    { apply build_paths_mono. }
    { intros base [?|Hanc]%build_paths; [done|].
      by apply (output_dir_not_target base) in Hanc. }
    { by rewrite app_nil_r. }
    destruct (after_world w1 files) as (Hd & _).
    change (after w1 files) with (scan_ w1) in Hrec, Hpaths, Hd.
    change (after w files) with (scan_ w) in Hrec.
    split; [done|]. split; [by rewrite !build_result, Hrec|].
    rewrite (build_unfold w1), Hrec.
    destruct (scan_ w).2 as [|r recs] eqn:E; [done|].
    unfold print, emit, save_to_disk, mkdir_parents. cbn [fst paths datasets].
    rewrite Hd, Hpaths. subst w1. rewrite (build_unfold w), E.
    unfold print, emit, save_to_disk, mkdir_parents. cbn [fst paths datasets].
    split; [by rewrite insert_insert_eq|].
    by rewrite <- (assoc_L (∪)), (idemp_L (∪)).
Qed.

(** C7.  A transcoder run that exits with a non-zero code ends the
    iteration of its item only: the records stay as they are and the line
    printed ends with the captured standard error.  With distinct base
    names no record has the key of the failed item, and the command and
    the diagnostic are in the trace of the run.  Every item with a
    non-blank transcript whose converted file exists or whose conversion
    succeeds has its record, and the run then returns normally with the
    records persisted. *)
Theorem transcoder_failure_not_fatal w X :
  returncode (answer X) ≠ 0%Z →
  (∀ w0 records content,
     lyrics !! lyrics_name (stem X) = Some content →
     target (stem X) ∉ paths w0 →
     body (w0, records) X =
       (print (error_line X) (converted X w0), records)) ∧
  stderr (answer X) `suffix_of` error_line X ∧
  (NoDup (stem <$> files) → X ∈ files →
   is_Some (lyrics !! lyrics_name (stem X)) →
   target (stem X) ∉ paths w →
   (∀ r, r ∈ (scan_ w).2 → keys r ≠ stem X) ∧
   Exec (cmd_of X) ∈ new_events w (build_ w).1 ∧
   Print (error_line X) ∈ new_events w (build_ w).1) ∧
  (∀ Y content,
     Y ∈ files →
     lyrics !! lyrics_name (stem Y) = Some content →
     strip content ≠ [] →
     target (stem Y) ∈ paths w ∨ returncode (answer Y) = 0%Z →
     row Y content ∈ (scan_ w).2 ∧
     ∃ w', build_ w = (w', inr tt) ∧
           datasets w' !! output_dir = Some (scan_ w).2).
Proof.
  intros Hrc. split_and!.
  - intros w0 records content Hl Ht. by apply (body_failed _ _ _ content).
  - unfold error_line. rewrite !app_assoc. by apply suffix_app_r.
  - intros Hnd HX [content Hl] Ht.
    pose proof HX as (pre & post & Hfiles)%list_elem_of_split.
    pose proof (NoDup_fmap_1 _ _ Hnd) as Hnd'. rewrite Hfiles in Hnd'.
    apply NoDup_app in Hnd' as (_ & Hpre & [Hpost _]%NoDup_cons).
    assert (∀ n, n ∈ files → stem n = stem X → n = X) as Hsame.
    { intros n Hn Hs. by eapply (NoDup_fmap_eq stem). }
    assert (∀ n, n ∈ pre → n ∈ files) as Hin_pre.
    { intros n Hn. rewrite Hfiles. apply elem_of_app. by left. }
    assert (∀ n, n ∈ post → n ∈ files) as Hin_post.
    { intros n Hn. rewrite Hfiles. apply elem_of_app. right. by right. }
    assert (X ∉ pre) as HXpre.
    { intros Hin. apply (Hpre X Hin). by left. }
    assert (target (stem X) ∉ paths (after w pre).1) as Ht1.
    { intros [?|[Hanc|(n & Hn & Heq & _)]]%after_paths_origin; [done| |].
      - by apply (has_target_length (stem X)) in Hanc.
      - apply target_of_inj in Heq. apply HXpre.
        rewrite <- (Hsame n); auto. }
    destruct (after_world w pre) as (_ & _ & evs1 & Htr1 & _).
    assert (after w files =
              ((after (print (error_line X) (converted X (after w pre).1)) post).1,
               (after w pre).2
               ++ (after (print (error_line X) (converted X (after w pre).1))
                     post).2)) as Hscan.
    { rewrite Hfiles, (cons_middle X), app_assoc, after_app, after_snoc.
      destruct (after w pre) as [w1 r1]. simpl in Ht1 |- *.
      by rewrite (body_failed _ _ _ content). }
    split_and!.
    + rewrite scan_after, Hscan. simpl.
      intros r [Hr|Hr]%elem_of_app Hk;
        apply after_record_name in Hr as (n & Hn & Hkn).
      * apply HXpre. rewrite <- (Hsame n); auto. congruence.
      * apply Hpost. rewrite <- (Hsame n); auto. congruence.
    + apply build_events_incl. rewrite scan_after, Hscan. simpl.
      destruct (after_world (print (error_line X) (converted X (after w pre).1))
                  post) as (_ & _ & evs2 & Htr2 & _).
      unfold new_events. rewrite Htr2. simpl.
      rewrite converted_trace, Htr1, <- !app_assoc, drop_app_length.
      apply elem_of_app. right. by left.
    + apply build_events_incl. rewrite scan_after, Hscan. simpl.
      destruct (after_world (print (error_line X) (converted X (after w pre).1))
                  post) as (_ & _ & evs2 & Htr2 & _).
      unfold new_events. rewrite Htr2. simpl.
      rewrite converted_trace, Htr1, <- !app_assoc, drop_app_length.
      apply elem_of_app. right. right. by left.
  - intros Y content HY Hl Hne HrcY.
    assert (row Y content ∈ (scan_ w).2) as Hrow.
    { rewrite scan_after. apply after_keeps; auto. }
    split; [done|]. apply build_succeeds. intros Hnil.
    rewrite Hnil in Hrow. by apply elem_of_nil in Hrow.
Qed.

(** *** Further properties of one run *)

(** X2.  [build_dataset] returns normally exactly when the scan gathered a
    record and raises the no-pairs error exactly when it gathered none.
    On return the store holds the gathered records at [output_dir] and
    nothing else in it changed, [output_dir] and its ancestors exist, and
    the last line printed is the summary with the number of records. *)
Theorem build_dataset_outcome w :
  let r := build_ w in
  ((scan_ w).2 = [] ↔ r.2 = inl no_pairs) ∧
  ((scan_ w).2 ≠ [] ↔ r.2 = inr tt) ∧
  (r.2 = inr tt →
     datasets r.1 = <[output_dir := (scan_ w).2]> (datasets w) ∧
     (∀ d, d ≠ output_dir → datasets r.1 !! d = datasets w !! d) ∧
     (∀ p, p ∈ ancestors output_dir → p ∈ paths r.1) ∧
     last (trace r.1) = Some (Print (saved_line (scan_ w).2))).
Proof.
  cbv zeta. destruct (after_world w files) as (Hd & _).
  change (after w files) with (scan_ w) in Hd.
  rewrite build_result, build_unfold.
  destruct (scan_ w).2 as [|r0 recs] eqn:E; split_and!; try done.
  intros _. unfold print, emit, save_to_disk, mkdir_parents.
  cbn [fst paths datasets trace]. rewrite Hd. split_and!; [done | | |].
  - intros d Hne. by rewrite lookup_insert_ne.
  - intros p Hp. rewrite elem_of_union, elem_of_list_to_set. by right.
  - by rewrite last_snoc.
Qed.

Lemma ancestors_child d n p :
  p ∈ ancestors d → p ∈ ancestors (child d n).
Proof.
  unfold ancestors, child. intros (k & -> & Hk%elem_of_seq)%list_elem_of_fmap.
  apply list_elem_of_fmap. exists k. split.
  - rewrite take_app_le; [done | lia].
  - apply elem_of_seq. rewrite length_app. simpl. lia.
Qed.

(** X3.  A run removes no path, and every path it creates is [output_dir],
    one of its ancestors, the [converted_audio] directory, or the
    converted file [converted_audio/B.wav] of a listed audio file with the
    scanned extension: nothing is written elsewhere. *)
Theorem writes_stay_under_output_dir w :
  paths w ⊆ paths (build_ w).1 ∧
  (∀ p, p ∈ paths (build_ w).1 →
     p ∈ paths w ∨ p ∈ ancestors (converted_dir output_dir)
     ∨ ∃ name, name ∈ listing ∧ endswith name audio_ext = true ∧
               p = target (stem name)).
Proof.
  split.
  - etrans; [apply (after_paths_mono w files) | apply build_paths_mono].
  - intros p [Hp|Hp]%build_paths.
    + rewrite scan_after in Hp.
      apply after_paths_origin in Hp as [?|[?|(name & Hn & -> & _)]]; auto.
      apply files_elem in Hn as [? ?]. right. right. by exists name.
    + right. left. unfold converted_dir. by apply ancestors_child.
Qed.

(** X4.  Every transcoder command of a run is
    [ffmpeg -y -i <audio file> -ar <sample_rate> -ac 2 <converted file>]
    for a listed audio file with the scanned extension that has a
    transcript and whose converted file did not exist when the run
    began. *)
Theorem transcoder_commands w cmd :
  Exec cmd ∈ new_events w (build_ w).1 →
  ∃ name,
    name ∈ listing ∧ endswith name audio_ext = true ∧
    is_Some (lyrics !! lyrics_name (stem name)) ∧
    (target (stem name) ∉ paths w) ∧
    cmd = [py "ffmpeg"; py "-y"; py "-i"; path_str (child audio_dir name);
           py "-ar"; str_of_int sample_rate; py "-ac"; py "2";
           path_str (target (stem name))].
Proof.
  intros Hc%build_events.
  destruct (after_world w files) as (_ & _ & evs & Ht & Hexec & _).
  rewrite scan_after, (after_new_events _ _ _ Ht) in Hc.
  destruct (Hexec cmd Hc) as (name & [? ?]%files_elem & -> & ? & ?).
  by exists name.
Qed.

(** X5.  Every record of a scan carries the caller's tags, the path of the
    converted file of its key, and a transcript that is not empty and has
    no whitespace at either end; that converted file exists when the run
    ends. *)
Theorem record_well_formed w r :
  r ∈ (scan_ w).2 →
  tags r = tags_arg ∧
  filename r = path_str (target (keys r)) ∧
  norm_lyrics r ≠ [] ∧
  strip (norm_lyrics r) = norm_lyrics r ∧
  target (keys r) ∈ paths (build_ w).1.
Proof.
  intros (name & content & -> & _ & (_ & Hne & _) & Ht)%scan_record.
  simpl. split_and!; try done; [apply strip_idemp | by apply build_paths_mono].
Qed.

(** A line that reports an item left out: [[skip] ...] or [[error] ...]. *)
Definition problem (e : event) : bool :=
  match e with
  | Print line => startswith line (py "[skip]") || startswith line (py "[error]")
  | Exec _ => false
  end.

Definition problems (evs : list event) : list event :=
  filter (λ e, problem e = true) evs.

Lemma problems_app evs1 evs2 :
  problems (evs1 ++ evs2) = problems evs1 ++ problems evs2.
Proof. apply filter_app. Qed.

(** X6.  Every audio file of the scan is accounted for once: it either
    gives a record or gets one [[skip]] or [[error]] line, so the number
    of records and the number of such lines add up to the number of audio
    files. *)
Theorem every_file_accounted w :
  (length (scan_ w).2 + length (problems (new_events w (scan_ w).1))
   = length files)%nat.
Proof.
  rewrite scan_after.
  assert (∃ evs, trace (after w files).1 = trace w ++ evs ∧
                 (length (after w files).2 + length (problems evs)
                  = length files)%nat) as (evs & Ht & Hlen).
  2:{ by rewrite (after_new_events _ _ _ Ht). }
  apply (after_ind (λ l w' records,
    ∃ evs, trace w' = trace w ++ evs ∧
           (length records + length (problems evs) = length l)%nat)).
  { exists []. by rewrite app_nil_r. }
  intros l name w' records (evs & Ht & Hlen).
  rewrite length_app. simpl.
  destruct (lyrics !! lyrics_name (stem name)) as [content|] eqn:Hl.
  - destruct (decide (target (stem name) ∈ paths w'
                      ∨ returncode (answer name) = 0%Z)) as [Hok|Hno].
    + rewrite (body_ready _ _ _ content) by done. unfold ready, exists_.
      destruct (truthy (strip content));
        case_bool_decide; cbn [fst snd print emit trace];
        rewrite ?converted_trace, Ht, <- ?app_assoc; eexists;
        (split; [done|]); rewrite ?problems_app, ?length_app; simpl;
        rewrite ?length_app; simpl; lia.
    + rewrite (body_failed _ _ _ content) by tauto.
      cbn [fst snd print emit trace].
      rewrite converted_trace, Ht, <- !app_assoc. eexists.
      split; [done|]. rewrite !problems_app, !length_app. simpl. lia.
  - rewrite body_missing by done. cbn [fst snd print emit trace].
    rewrite Ht, <- app_assoc. eexists. split; [done|].
    rewrite problems_app, length_app. simpl. lia.
Qed.

(** *** The scan as a filter and map *)

Lemma left_target_differs name base :
  stem name ≠ base → target base ≠ target (stem name).
Proof. intros Hne Heq. by apply target_of_inj in Heq. Qed.

Lemma body_other_target w records name base :
  stem name ≠ base →
  target base ∈ paths (body (w, records) name).1 ↔ target base ∈ paths w.
Proof.
  intros Hne. destruct (body_world w records name) as [_ Hw].
  destruct (attempted name w); destruct Hw as [-> _]; [|done].
  rewrite converted_paths_elem. split; [|auto].
  intros [?|[Hanc|[_ Heq]]]; [done | |].
  - by apply (has_target_length base) in Hanc.
  - by apply left_target_differs in Heq.
Qed.

(** X7.  When the audio files have pairwise distinct base names, the
    records of a scan are, in the order of the sorted file names, the rows
    of exactly those files that have a transcript which is not blank and
    whose converted file existed when the run began or whose conversion
    exits with 0. *)
Theorem scan_is_filter_map w :
  NoDup (stem <$> files) →
  (scan_ w).2 = omap (λ name, yields name w) files.
Proof.
  rewrite scan_after. generalize files. intros l.
  induction l as [|name l IH] using rev_ind; [done|].
  rewrite fmap_app. intros (Hnd & Hfresh & _)%NoDup_app.
  specialize (IH Hnd).
  assert (∀ base, base ∉ stem <$> l →
            target base ∈ paths (after w l).1 ↔ target base ∈ paths w) as Hsame.
  { clear IH Hfresh. intros base. induction l as [|n l IHl] using rev_ind; [done|].
    rewrite fmap_app, not_elem_of_app. intros [Hl Hn].
    rewrite after_snoc. destruct (after w l) as [w' r'] eqn:E.
    rewrite body_other_target.
    - apply IHl; [|done]. rewrite fmap_app in Hnd.
      by apply NoDup_app in Hnd as (? & _).
    - intros Heq. apply Hn. rewrite <- Heq. by left. }
  assert (stem name ∉ stem <$> l) as Hname.
  { intros Hin. apply (Hfresh _ Hin). by left. }
  rewrite after_snoc, omap_app. destruct (after w l) as [w' r'] eqn:E.
  rewrite body_records. simpl in IH, Hsame. rewrite IH. f_equal. simpl.
  assert (yields name w' = yields name w) as ->.
  { unfold yields, exists_. destruct (lyrics !! _); [|done].
    by rewrite (bool_decide_ext _ _ (Hsame (stem name) Hname)). }
  by destruct (yields name w).
Qed.

(** *** Keys and file names *)






(** *** Runs after the first *)

(** Two worlds hold the same converted files. *)
Definition same_targets (w w' : world) : Prop :=
  ∀ base, target base ∈ paths w ↔ target base ∈ paths w'.

Lemma body_same_targets w w' records name :
  same_targets w w' →
  (body (w, records) name).2 = (body (w', records) name).2 ∧
  same_targets (body (w, records) name).1 (body (w', records) name).1.
Proof.
  intros Hsame.
  assert (exists_ (target (stem name)) w = exists_ (target (stem name)) w')
    as Hex by (unfold exists_; by rewrite (bool_decide_ext _ _ (Hsame _))).
  split.
  - rewrite !body_records. f_equal. unfold yields. by rewrite Hex.
  - destruct (body_world w records name) as [_ Hw].
    destruct (body_world w' records name) as [_ Hw'].
    unfold attempted in Hw, Hw'. rewrite <- Hex in Hw'.
    destruct (_ && _); destruct Hw as [Hp _], Hw' as [Hp' _];
      intros base; rewrite Hp, Hp'; [|done].
    rewrite !converted_paths_elem, (Hsame base). done.
Qed.

Lemma after_same_targets w w' l :
  same_targets w w' →
  (after w l).2 = (after w' l).2 ∧
  same_targets (after w l).1 (after w' l).1.
Proof.
  intros Hsame. induction l as [|name l [IHr IHt]] using rev_ind; [done|].
  rewrite !after_snoc.
  destruct (after w l) as [w1 r1], (after w' l) as [w1' r1'].
  simpl in IHr, IHt. subst r1'. by apply body_same_targets.
Qed.

Lemma after_new_target w l base :
  target base ∈ paths (after w l).1 →
  target base ∈ paths w
  ∨ ∃ name, name ∈ l ∧ base = stem name ∧
            is_Some (lyrics !! lyrics_name (stem name)) ∧
            left_file name = true.
Proof.
  apply (after_ind (λ l w' _, target base ∈ paths w' →
    target base ∈ paths w
    ∨ ∃ name, name ∈ l ∧ base = stem name ∧
              is_Some (lyrics !! lyrics_name (stem name)) ∧
              left_file name = true)); clear l; [by left|].
  intros l name w' records IH.
  assert (target base ∈ paths w' →
    target base ∈ paths w
    ∨ ∃ n, n ∈ l ++ [name] ∧ base = stem n ∧
           is_Some (lyrics !! lyrics_name (stem n)) ∧ left_file n = true)
    as IH'.
  { intros [?|(n & ? & ?)]%IH; [by left|]. right. exists n.
    split; [|done]. apply elem_of_app. by left. }
  destruct (body_world w' records name) as [_ Hw].
  destruct (attempted name w') eqn:Hatt; destruct Hw as [-> _]; [|done].
  apply andb_true_iff in Hatt as [Hl%bool_decide_eq_true _].
  intros [?|[Hanc|[Hleft Heq]]]%converted_paths_elem; [by apply IH' | |].
  - by apply (has_target_length base) in Hanc.
  - apply target_of_inj in Heq. right. exists name.
    split_and!; try done. apply elem_of_app. right. by left.
Qed.

(** A scan from a world that has the paths left by an earlier scan creates
    no converted file. *)
Lemma rescan_adds_no_target w w2 :
  paths (scan_ w).1 ⊆ paths w2 → same_targets (scan_ w2).1 w2.
Proof.
  intros Hsub base. split; [|apply (after_paths_mono w2 files)].
  rewrite scan_after.
  intros [?|(name & Hn & -> & Hl & Hleft)]%after_new_target; [done|].
  destruct (decide (target (stem name) ∈ paths w2)) as [?|Hno]; [done|].
  destruct (after_missing_target w files name Hn Hl) as [_ Hnone].
  { intros ?. by apply Hno, Hsub. }
  congruence.
Qed.

(** X9.  From the second run on the runs repeat: with the inputs and the
    transcoder's answers unchanged, the second run leaves the converted
    files as the first left them, and the third run gathers the records of
    the second, in the same order, ends as the second did and leaves the
    store as the second left it, also when failed conversions left files
    behind or base names coincide. *)
Theorem stable_from_second_run w :
  let first := build_ w in
  let second := build_ first.1 in
  let third := build_ second.1 in
  same_targets second.1 first.1 ∧
  (scan_ second.1).2 = (scan_ first.1).2 ∧
  third.2 = second.2 ∧
  datasets third.1 = datasets second.1.
Proof.
  cbv zeta. set (w1 := (build_ w).1). set (w2 := (build_ w1).1).
  assert (same_targets w2 w1) as Hsame.
  { intros base. split.
    - intros [Hp|Hanc]%build_paths.
      + by apply (rescan_adds_no_target w w1 (build_paths_mono w)).
      + by apply (output_dir_not_target base) in Hanc.
    - intros Hp. apply build_paths_mono. by apply (after_paths_mono w1 files). }
  destruct (after_same_targets w2 w1 files Hsame) as [Hrec _].
  change (after w2 files) with (scan_ w2) in Hrec.
  change (after w1 files) with (scan_ w1) in Hrec.
  destruct (after_world w2 files) as (Hd & _).
  change (after w2 files) with (scan_ w2) in Hd.
  split; [done|]. split; [done|]. split; [by rewrite !build_result, Hrec|].
  rewrite (build_unfold w2), Hrec.
  destruct (scan_ w1).2 as [|r recs] eqn:E; [done|].
  unfold print, emit, save_to_disk, mkdir_parents. cbn [fst paths datasets].
  rewrite Hd. subst w2. rewrite (build_unfold w1), E.
  unfold print, emit, save_to_disk, mkdir_parents. cbn [fst paths datasets].
  by rewrite insert_insert_eq.
Qed.

End runs.

End BuilderFacts.

(** ** The tag list of the command line *)

Module TagFacts.
Import Builder.

(** A piece is blank: empty or all whitespace. *)
Definition blank (p : pystr) : Prop := Forall (λ c, isspace c = true) p.

#[global] Instance blank_dec p : Decision (blank p).
Proof. unfold blank. apply _. Defined.

(** The comma-separated pieces of a string, in the words of the
    specification: the strings between its commas, that is a list, not
    empty, of strings without a comma whose join with commas is the
    string. *)
Definition pieces_of (s : pystr) (pieces : list pystr) : Prop :=
  pieces ≠ [] ∧ Forall (λ p, comma ∉ p) pieces ∧ join [comma] pieces = s.

(** The tag list in the words of the specification: the pieces, the blank
    ones dropped, each stripped. *)
Definition tags_spec (pieces : list pystr) : list pystr :=
  strip <$> filter (λ p, ¬ blank p) pieces.

(** Every string has its pieces, and only one list of them. *)
Lemma pieces_of_split s : pieces_of s (split comma s).
Proof.
  split_and!; [apply split_nonempty | | apply join_split].
  apply Forall_forall. intros p Hp Hc.
  by destruct (split_elem _ _ _ _ Hp Hc).
Qed.

Lemma pieces_of_unique s pieces : pieces_of s pieces → pieces = split comma s.
Proof. intros (Hne & Hall & <-). by rewrite split_join. Qed.

(** The stripped pieces are the one list that holds, piece by piece, the
    text between the leading and the trailing whitespace. *)
Lemma stripped_pieces (ps tags : list pystr) :
  Forall2 stripped_of ps tags ↔ tags = strip <$> ps.
Proof.
  split.
  - induction 1 as [|p t ps tags Hp _ IH]; [done|].
    rewrite fmap_cons. f_equal; [by apply stripped_of_strip | done].
  - intros ->. apply Forall2_fmap_r, Forall_Forall2_diag, Forall_forall.
    intros p _. apply strip_stripped.
Qed.

Lemma strip_pieces_spec pieces :
  strip_pieces pieces = strip <$> filter (λ p, ¬ blank p) pieces.
Proof.
  induction pieces as [|t rest IH]; simpl; [done|].
  rewrite filter_cons. destruct (truthy (strip t)) eqn:Ht.
  - apply truthy_true in Ht. rewrite decide_True; [by rewrite IH|].
    intros Hb. by apply Ht, strip_nil_iff.
  - apply truthy_false in Ht. rewrite decide_False; [done|].
    intros Hb. by apply Hb, strip_nil_iff.
Qed.

Lemma strip_pieces_blank pieces :
  Forall blank pieces → strip_pieces pieces = [].
Proof.
  induction 1 as [|t rest Ht _ IH]; simpl; [done|].
  apply strip_nil_iff in Ht. by rewrite Ht.
Qed.

(** C10.  The [--tags] string is the comma-join of its pieces, a list of
    comma-free strings that is unique.  The tag list that [main] computes
    and passes to [build_dataset] is the list of these pieces, each
    stripped, without the blank ones; it is the only list that holds, for
    each piece that is not blank and in their order, the text between its
    leading and its trailing whitespace.  No tag is empty, has whitespace
    at either end or holds a comma, and a string of commas and whitespace
    gives the empty list. *)
Theorem tags_from_command_line (s : pystr) :
  (∃ pieces, pieces_of s pieces) ∧
  (∀ pieces pieces', pieces_of s pieces → pieces_of s pieces' →
     pieces = pieces') ∧
  (∀ pieces, pieces_of s pieces →
     parse_tags s = tags_spec pieces ∧
     (∀ tags, Forall2 stripped_of (filter (λ p, ¬ blank p) pieces) tags ↔
              tags = parse_tags s) ∧
     ∀ ffmpeg listing lyrics a w,
       a_tags a = s →
       main ffmpeg listing lyrics a w =
         build_dataset ffmpeg listing lyrics (a_audio_dir a) (a_lyrics_dir a)
           (a_output_dir a) (tags_spec pieces) (a_recaption a)
           (a_audio_ext a) (a_sample_rate a) w) ∧
  (∀ t, t ∈ parse_tags s → t ≠ [] ∧ strip t = t ∧ comma ∉ t) ∧
  (Forall (λ c, c = comma ∨ isspace c = true) s → parse_tags s = []).
Proof.
  assert (∀ pieces, pieces_of s pieces → parse_tags s = tags_spec pieces)
    as Hspec.
  { intros pieces ->%pieces_of_unique. apply strip_pieces_spec. }
  split_and!.
  - exists (split comma s). apply pieces_of_split.
  - intros pieces pieces' ->%pieces_of_unique ->%pieces_of_unique. done.
  - intros pieces Hp. split; [by apply Hspec|]. split.
    + intros tags. rewrite (Hspec pieces Hp). apply stripped_pieces.
    + intros ffmpeg listing lyrics a w <-. unfold main.
      by rewrite (Hspec pieces).
  - rewrite (Hspec _ (pieces_of_split s)). unfold tags_spec.
    intros t (p & -> & [Hnb Hp]%list_elem_of_filter)%list_elem_of_fmap.
    split_and!.
    + intros Hnil. by apply Hnb, strip_nil_iff.
    + apply strip_idemp.
    + intros Hc%strip_elem. by destruct (split_elem _ _ _ _ Hp Hc).
  - intros Hall. apply strip_pieces_blank. apply Forall_forall.
    intros p Hp. apply Forall_forall. intros c Hc.
    destruct (split_elem _ _ _ _ Hp Hc) as [Hin Hne].
    rewrite Forall_forall in Hall. by destruct (Hall c Hin).
Qed.

End TagFacts.

(** ** The fetcher *)

Module FetcherFacts.
Import Fetcher.

(** C9.  When the downloader returns a non-zero code, [download_channel]
    raises [SystemExit] with that code right after the subprocess, and the
    script leaves with that status when the code is an exit status (1 to
    255); when it returns zero, [download_channel] returns normally and
    the script leaves with status 0. *)
Theorem download_channel_exit (ytdlp : downloader) (url : pystr) (dir : Path)
    (n : Z) (w : world) :
  let cmd := ytdlp_cmd url dir n in
  let a := {| channel_url := url; output_dir := dir; max_concurrent := n |} in
  (ytdlp cmd ≠ 0%Z →
     ∃ w', download_channel ytdlp url dir n w
             = (w', inl (SystemExit (ytdlp cmd))) ∧
           last (trace w') = Some (Exec cmd)) ∧
  ((0 < ytdlp cmd < 256)%Z →
     exit_status (main ytdlp a w).2 = ytdlp cmd) ∧
  (ytdlp cmd = 0%Z →
     (download_channel ytdlp url dir n w).2 = inr tt ∧
     exit_status (main ytdlp a w).2 = 0%Z).
Proof.
  intros cmd a. unfold main, download_channel. simpl. fold cmd.
  split_and!.
  - intros Hrc%Z.eqb_neq. rewrite Hrc. simpl. eexists. split; [done|].
    simpl. by rewrite last_snoc.
  - intros Hrc. replace (ytdlp cmd =? 0)%Z with false by (symmetry; apply Z.eqb_neq; lia).
    simpl. change 255%Z with (Z.ones 8). rewrite Z.land_ones by lia.
    apply Z.mod_small. change (2 ^ 8)%Z with 256%Z. lia.
  - intros Hrc. by rewrite Hrc.
Qed.

End FetcherFacts.

(** * Runs on concrete directories *)

Module Examples.
Import Builder BuilderFacts.

(** Decide a closed proposition by evaluation. *)
Ltac by_evaluation :=
  match goal with
  | |- ?P => apply (bool_decide_eq_true_1 P); vm_compute; reflexivity
  end.

Definition w0 : world := {| paths := ∅; datasets := ∅; trace := [] |}.

Definition in_dir : Path := [py "in"].
Definition ly_dir : Path := [py "ly"].
Definition out_dir : Path := [py "out"].

Definition ok : ffmpeg_outcome :=
  {| returncode := 0; stderr := []; leaves_output := false |}.

Definition failed (partial : bool) : ffmpeg_outcome :=
  {| returncode := 1; stderr := py "Invalid data found";
     leaves_output := partial |}.

Definition always_ok : transcoder := λ _, ok.

(** A transcoder that fails on the audio file [name], leaving a truncated
    output file when [partial] is set. *)
Definition fails_on (name : pystr) (partial : bool) : transcoder :=
  λ cmd, if bool_decide (cmd !! 3%nat = Some (path_str (child in_dir name)))
         then failed partial else ok.

Definition texts (l : list (pystr * pystr)) : gmap pystr pystr :=
  list_to_map l.

Definition run (ffmpeg : transcoder) (listing : list pystr)
    (lyrics : gmap pystr pystr) (w : world) : world * (exn + unit) :=
  build_dataset ffmpeg listing lyrics in_dir ly_dir out_dir [py "pop"] None
    (py ".mp3") 48000 w.

Definition gathered (ffmpeg : transcoder) (listing : list pystr)
    (lyrics : gmap pystr pystr) (w : world) : list record :=
  (scan ffmpeg listing lyrics in_dir ly_dir out_dir [py "pop"] None
     (py ".mp3") 48000 w).2.

(** The scenario of the specification: [song1] has a transcript, [song2]
    has none. *)
Example song1_only :
  keys <$> gathered always_ok [py "song1.mp3"; py "song2.mp3"]
             (texts [(py "song1.txt", py "hello world")]) w0 = [py "song1"]
  ∧ norm_lyrics <$> gathered always_ok [py "song1.mp3"; py "song2.mp3"]
             (texts [(py "song1.txt", py "hello world")]) w0
    = [py "hello world"].
Proof. by vm_compute. Qed.

(** One audio file whose transcript is blank: the transcoder runs, no
    record is gathered, the run raises, and yet [output_dir] and the
    converted file now exist. *)
Lemma no_pairs_creates_output_dir :
  let lyrics := texts [(py "a.txt", py "   ")] in
  let r := run always_ok [py "a.mp3"] lyrics w0 in
  gathered always_ok [py "a.mp3"] lyrics w0 = [] ∧
  r.2 = inl no_pairs ∧
  (out_dir ∉ paths w0) ∧
  (out_dir ∈ paths r.1) ∧
  [py "out"; py "converted_audio"; py "a.wav"] ∈ paths r.1.
Proof.
  cbv zeta. split_and!.
  - by vm_compute.
  - by vm_compute.
  - by_evaluation.
  - by_evaluation.
  - by_evaluation.
Qed.

Lemma no_pairs_raises_witness :
  gathered always_ok [py "a.mp3"] ∅ w0 = [] ∧
  (run always_ok [py "a.mp3"] ∅ w0).2 = inl no_pairs ∧
  datasets (run always_ok [py "a.mp3"] ∅ w0).1 = datasets w0.
Proof.
  assert (gathered always_ok [py "a.mp3"] ∅ w0 = []) as H by (by vm_compute).
  split; [exact H|].
  destruct (no_pairs_raises always_ok [py "a.mp3"] ∅ in_dir ly_dir out_dir
              [py "pop"] None (py ".mp3") 48000 w0 H) as (H1 & H2 & _).
  split; [exact H1 | exact H2].
Defined.

(** Three songs with transcripts, listed out of order. *)
Definition abc_lyrics : gmap pystr pystr :=
  texts [(py "a.txt", py "la la"); (py "b.txt", py "do re mi ");
         (py "c.txt", py " na na")].

Definition a_row : record :=
  {| keys := py "a";
     filename := py "/out/converted_audio/a.wav";
     tags := [py "pop"];
     norm_lyrics := py "la la";
     recaption := None |}.

Lemma persisted_records_valid_witness :
  ∃ name content,
    name ∈ [py "b.mp3"; py "a.mp3"; py "c.mp3"] ∧
    endswith name (py ".mp3") = true ∧
    keys a_row = stem name ∧
    abc_lyrics !! lyrics_name (stem name) = Some content ∧
    norm_lyrics a_row = strip content ∧ strip content ≠ [] ∧
    (target_of out_dir (stem name) ∈ paths w0 ∨
     Exec (cmd_of in_dir out_dir 48000 name)
     ∈ new_events w0
         (run always_ok [py "b.mp3"; py "a.mp3"; py "c.mp3"] abc_lyrics w0).1 ∧
     returncode (answer always_ok in_dir out_dir 48000 name) = 0%Z).
Proof.
  set (r := run always_ok [py "b.mp3"; py "a.mp3"; py "c.mp3"] abc_lyrics w0).
  destruct (persisted_records_valid always_ok
              [py "b.mp3"; py "a.mp3"; py "c.mp3"] abc_lyrics in_dir ly_dir
              out_dir [py "pop"] None (py ".mp3") 48000 w0 r.1
              (gathered always_ok [py "b.mp3"; py "a.mp3"; py "c.mp3"]
                 abc_lyrics w0) a_row)
    as (name & content & H1 & H2 & H3 & _ & _ & _ & H4 & H5 & H6 & _ & _ & _
        & _ & H7).
  - change (r = (r.1, inr tt)). rewrite (surjective_pairing r) at 1.
    f_equal; by vm_compute.
  - by vm_compute.
  - vm_compute. left.
  - exists name, content. split_and!; try assumption.
    apply H7. by_evaluation.
Defined.

(** Two audio files with the base name [.mp3], and a transcoder that
    always fails, leaving a truncated file.  The conversion of [.mp3]
    fails; [.mp3.mp3] then finds [.mp3.wav] in place and gets a record,
    which is persisted: no converted file was there before the run and no
    transcoder run exited with 0. *)
Lemma leftover_file_gives_record :
  let ffmpeg : transcoder := λ _, failed true in
  let listing := [py ".mp3"; py ".mp3.mp3"] in
  let lyrics := texts [(py ".mp3.txt", py "la")] in
  let r := run ffmpeg listing lyrics w0 in
  stem (py ".mp3") = py ".mp3" ∧ stem (py ".mp3.mp3") = py ".mp3" ∧
  r.2 = inr tt ∧
  datasets r.1 !! out_dir
  = Some [{| keys := py ".mp3";
             filename := py "/out/converted_audio/.mp3.wav";
             tags := [py "pop"];
             norm_lyrics := py "la";
             recaption := None |}] ∧
  (target_of out_dir (py ".mp3") ∉ paths w0) ∧
  (∀ cmd, returncode (ffmpeg cmd) ≠ 0%Z) ∧
  (∀ cmd, Exec cmd ∈ new_events w0 r.1 →
     cmd = cmd_of in_dir out_dir 48000 (py ".mp3")).
Proof.
  cbv zeta. split_and!; try (by vm_compute).
  intros cmd Hc. vm_compute in Hc.
  repeat (apply elem_of_cons in Hc as [Hc|Hc]; [by inversion Hc|]).
  by apply elem_of_nil in Hc.
Qed.

(** Two files whose base names are one a prefix of the other: the file
    names sort [a-b.mp3] first, the base names [a] first. *)
Lemma order_is_by_file_name :
  let lyrics := texts [(py "a.txt", py "la"); (py "a-b.txt", py "li")] in
  keys <$> gathered always_ok [py "a.mp3"; py "a-b.mp3"] lyrics w0
    = [py "a-b"; py "a"] ∧
  ¬ str_le (py "a-b") (py "a") ∧
  ¬ StronglySorted str_le
      (keys <$> gathered always_ok [py "a.mp3"; py "a-b.mp3"] lyrics w0).
Proof.
  cbv zeta. split_and!.
  - by vm_compute.
  - by vm_compute.
  - by_evaluation.
Qed.

Lemma records_in_file_name_order_witness :
  keys <$> gathered always_ok [py "b.mp3"; py "a.mp3"; py "c.mp3"]
             abc_lyrics w0 = [py "a"; py "b"; py "c"].
Proof.
  destruct (records_in_file_name_order always_ok
              [py "b.mp3"; py "a.mp3"; py "c.mp3"] abc_lyrics in_dir ly_dir
              out_dir [py "pop"] None (py ".mp3") 48000 w0) as (_ & _ & H).
  apply H; [reflexivity | reflexivity | | reflexivity].
  intros base Hb.
  repeat (apply elem_of_cons in Hb as [->|Hb]);
    [exists (py "la la") | exists (py "do re mi ")
     | exists (py " na na") | inversion Hb];
    split; by vm_compute.
Defined.

(** Two songs; the transcoder fails on [x.mp3]. *)
Definition xy_lyrics : gmap pystr pystr :=
  texts [(py "x.txt", py "un"); (py "y.txt", py "deux")].

(** When the failed conversion of [x.mp3] leaves a truncated file, the
    first run keeps [y] only and the second run, on unchanged inputs,
    finds [x.wav] and keeps [x] and [y]. *)
Lemma second_run_differs :
  let ffmpeg := fails_on (py "x.mp3") true in
  let listing := [py "x.mp3"; py "y.mp3"] in
  let first := run ffmpeg listing xy_lyrics w0 in
  let second := run ffmpeg listing xy_lyrics first.1 in
  keys <$> gathered ffmpeg listing xy_lyrics w0 = [py "y"] ∧
  keys <$> gathered ffmpeg listing xy_lyrics first.1 = [py "x"; py "y"] ∧
  first.2 = inr tt ∧ second.2 = inr tt ∧
  datasets second.1 !! out_dir ≠ datasets first.1 !! out_dir.
Proof. cbv zeta. split_and!; by vm_compute. Qed.

(** The condition on base names is needed as well.  [.mp3] and [.mp3.mp3]
    share the base name [.mp3]: the transcoder fails on the first and
    leaves nothing, the second is converted, and the second run finds the
    converted file for both. *)
Example same_base_name_differs :
  let ffmpeg := fails_on (py ".mp3") false in
  let listing := [py ".mp3"; py ".mp3.mp3"] in
  let lyrics := texts [(py ".mp3.txt", py "la")] in
  let first := run ffmpeg listing lyrics w0 in
  keys <$> gathered ffmpeg listing lyrics w0 = [py ".mp3"] ∧
  keys <$> gathered ffmpeg listing lyrics first.1 = [py ".mp3"; py ".mp3"].
Proof. cbv zeta. split; by vm_compute. Qed.

Lemma second_run_idempotent_witness :
  let ffmpeg := fails_on (py "x.mp3") false in
  let listing := [py "x.mp3"; py "y.mp3"] in
  let first := run ffmpeg listing xy_lyrics w0 in
  gathered ffmpeg listing xy_lyrics first.1
    = gathered ffmpeg listing xy_lyrics w0 ∧
  (run ffmpeg listing xy_lyrics first.1).2 = first.2.
Proof.
  cbv zeta.
  destruct (second_run_idempotent (fails_on (py "x.mp3") false)
              [py "x.mp3"; py "y.mp3"] xy_lyrics in_dir ly_dir out_dir
              [py "pop"] None (py ".mp3") 48000 w0) as [_ H].
  destruct H as (H1 & H2 & _).
  - intros cmd. unfold fails_on. case_bool_decide; simpl; [reflexivity|].
    intros Hne. by destruct Hne.
  - by_evaluation.
  - split; [exact H1 | exact H2].
Defined.

Lemma missing_transcript_skipped_witness :
  Forall (λ r, keys r ≠ py "song2")
    (gathered always_ok [py "song1.mp3"; py "song2.mp3"]
       (texts [(py "song1.txt", py "hello world")]) w0).
Proof.
  apply Forall_forall.
  destruct (missing_transcript_skipped always_ok
              [py "song1.mp3"; py "song2.mp3"]
              (texts [(py "song1.txt", py "hello world")]) in_dir ly_dir
              out_dir [py "pop"] None (py ".mp3") 48000 w0 (py "song2.mp3"))
    as [H _].
  - by_evaluation.
  - by vm_compute.
  - by vm_compute.
  - exact H.
Defined.

Lemma blank_transcript_excluded_witness :
  Forall (λ r, keys r ≠ py "b")
    (gathered always_ok [py "a.mp3"; py "b.mp3"]
       (texts [(py "a.txt", py "la la"); (py "b.txt", py "  ")]) w0).
Proof.
  apply Forall_forall.
  destruct (blank_transcript_excluded always_ok [py "a.mp3"; py "b.mp3"]
              (texts [(py "a.txt", py "la la"); (py "b.txt", py "  ")])
              in_dir ly_dir out_dir [py "pop"] None (py ".mp3") 48000 w0
              (py "b") (py "  ")) as [H _].
  - by vm_compute.
  - by_evaluation.
  - exact H.
Defined.

(** Three songs; the transcoder fails on [x.mp3] and leaves nothing. *)
Definition xyz_lyrics : gmap pystr pystr :=
  texts [(py "x.txt", py "un"); (py "y.txt", py "deux");
         (py "z.txt", py "trois")].

Lemma transcoder_failure_not_fatal_witness :
  let ffmpeg := fails_on (py "x.mp3") false in
  let listing := [py "x.mp3"; py "y.mp3"; py "z.mp3"] in
  Forall (λ r, keys r ≠ py "x") (gathered ffmpeg listing xyz_lyrics w0) ∧
  (∃ w', run ffmpeg listing xyz_lyrics w0 = (w', inr tt) ∧
         datasets w' !! out_dir = Some (gathered ffmpeg listing xyz_lyrics w0)).
Proof.
  cbv zeta.
  destruct (transcoder_failure_not_fatal (fails_on (py "x.mp3") false)
              [py "x.mp3"; py "y.mp3"; py "z.mp3"] xyz_lyrics in_dir ly_dir
              out_dir [py "pop"] None (py ".mp3") 48000 w0 (py "x.mp3"))
    as (_ & _ & Hx & Hy).
  - by vm_compute.
  - split.
    + apply Forall_forall.
      destruct Hx as [H _]; [by_evaluation | by_evaluation | | by_evaluation
                             | exact H].
      exists (py "un"). by vm_compute.
    + destruct (Hy (py "y.mp3") (py "deux")) as [_ H];
        [by_evaluation | by vm_compute | by vm_compute
         | right; by vm_compute | exact H].
Defined.

Definition jazz_row : record :=
  {| keys := py "a";
     filename := py "/out/converted_audio/a.wav";
     tags := [py "pop"];
     norm_lyrics := py "la la";
     recaption := Some {| style := py "jazz" |} |}.

Lemma style_iff_supplied_witness :
  recaption jazz_row = Some {| style := py "jazz" |} ↔
  Some (py "jazz") = Some (py "jazz") ∧ py "jazz" ≠ [].
Proof.
  destruct (style_iff_supplied always_ok [py "a.mp3"] abc_lyrics in_dir
              ly_dir out_dir [py "pop"] (Some (py "jazz")) (py ".mp3") 48000
              w0 jazz_row) as (_ & H & _).
  - vm_compute. left.
  - exact (H (py "jazz")).
Defined.

Lemma tags_from_command_line_witness :
  parse_tags (py " pop, ,slow tempo,") = [py "pop"; py "slow tempo"] ∧
  parse_tags default_tags = [py "pop"; py "midtempo"; py "warm"; py "guitar"] ∧
  parse_tags (py " , ,,  ") = [].
Proof.
  split_and!.
  - destruct (TagFacts.tags_from_command_line (py " pop, ,slow tempo,"))
      as (_ & _ & H & _).
    destruct (H [py " pop"; py " "; py "slow tempo"; []]) as [Hp _].
    + split_and!; [done | by_evaluation | by vm_compute].
    + etrans; [exact Hp | by vm_compute].
  - destruct (TagFacts.tags_from_command_line default_tags)
      as (_ & _ & H & _).
    destruct (H [py "pop"; py "midtempo"; py "warm"; py "guitar"]) as [Hp _].
    + split_and!; [done | by_evaluation | by vm_compute].
    + etrans; [exact Hp | by vm_compute].
  - destruct (TagFacts.tags_from_command_line (py " , ,,  "))
      as (_ & _ & _ & _ & H).
    apply H. by_evaluation.
Defined.

Lemma download_channel_exit_witness :
  let ytdlp : Fetcher.downloader := λ _, 3%Z in
  let a := {| Fetcher.channel_url := py "https://www.youtube.com/@Handle";
              Fetcher.output_dir := out_dir;
              Fetcher.max_concurrent := 2 |} in
  Fetcher.exit_status
    (Fetcher.main ytdlp a {| Fetcher.dirs := ∅; Fetcher.trace := [] |}).2
  = 3%Z.
Proof.
  cbv zeta.
  destruct (FetcherFacts.download_channel_exit (λ _, 3%Z)
              (py "https://www.youtube.com/@Handle") out_dir 2
              {| Fetcher.dirs := ∅; Fetcher.trace := [] |}) as (_ & H & _).
  apply H. lia.
Defined.

End Examples.

(** * Further properties *)

(** ** Tags and their command-line form *)

Module TagJoin.
Import Builder.

(** A tag as the builder keeps it: not empty, no whitespace at either
    end, no comma. *)
Definition clean_tag (t : pystr) : Prop :=
  t ≠ [] ∧ strip t = t ∧ comma ∉ t.

Lemma strip_pieces_clean (ts : list pystr) :
  Forall clean_tag ts → strip_pieces ts = ts.
Proof.
  induction 1 as [|t ts (Hne & Hs & _) _ IH]; [done|]. simpl.
  rewrite Hs. apply truthy_true in Hne. by rewrite Hne, IH.
Qed.

Lemma parse_tags_clean (s : pystr) : Forall clean_tag (parse_tags s).
Proof.
  unfold parse_tags. rewrite TagFacts.strip_pieces_spec.
  apply Forall_forall.
  intros t (p & -> & [Hnb Hp]%list_elem_of_filter)%list_elem_of_fmap.
  split_and!.
  - intros Hnil. by apply Hnb, strip_nil_iff.
  - apply strip_idemp.
  - intros Hc%strip_elem. by destruct (split_elem _ _ _ _ Hp Hc).
Qed.

(** X10.  Joining clean tags with commas and parsing the string gives the
    tags back, so every tag list the builder can hold has a command-line
    form; in particular parsing the joined result of a parse changes
    nothing. *)
Theorem tags_round_trip (ts : list pystr) (s : pystr) :
  (Forall clean_tag ts → parse_tags (join [comma] ts) = ts) ∧
  parse_tags (join [comma] (parse_tags s)) = parse_tags s.
Proof.
  assert (∀ l, Forall clean_tag l → parse_tags (join [comma] l) = l) as H.
  { intros l Hl. unfold parse_tags. destruct l as [|t l]; [done|].
    rewrite split_join; [by apply strip_pieces_clean | done |].
    eapply Forall_impl; [exact Hl|]. by intros ? (_ & _ & ?). }
  split; [apply H | apply H, parse_tags_clean].
Qed.

End TagJoin.

(** ** What the builder reads *)

Module InputFacts.
Import Builder.

Lemma foldl_ext_in {A B} (f g : A → B → A) (l : list B) (a : A) :
  (∀ a' x, x ∈ l → f a' x = g a' x) → foldl f a l = foldl g a l.
Proof.
  revert a. induction l as [|x l IH]; intros a H; [done|]. simpl.
  rewrite H by (by left). apply IH. intros a' y Hy. apply H. by right.
Qed.

(** X12.  The run reads [lyrics_dir] only at the transcripts [B.txt] of
    the scanned audio files: two lyrics directories that agree on those
    give the same run, whatever else they hold. *)
Theorem only_paired_transcripts_read (ffmpeg : transcoder)
    (listing : list pystr) (lyrics1 lyrics2 : gmap pystr pystr)
    (audio_dir lyrics_dir output_dir : Path) (tags_arg : list pystr)
    (recaption_arg : option pystr) (audio_ext : pystr) (sample_rate : Z)
    (w : world) :
  (∀ name, name ∈ listing → endswith name audio_ext = true →
           lyrics1 !! lyrics_name (stem name)
           = lyrics2 !! lyrics_name (stem name)) →
  build_dataset ffmpeg listing lyrics1 audio_dir lyrics_dir output_dir
    tags_arg recaption_arg audio_ext sample_rate w
  = build_dataset ffmpeg listing lyrics2 audio_dir lyrics_dir output_dir
      tags_arg recaption_arg audio_ext sample_rate w.
Proof.
  intros Hagree. unfold build_dataset, scan.
  rewrite (foldl_ext_in
             (loop_body ffmpeg lyrics1 audio_dir lyrics_dir output_dir
                tags_arg recaption_arg sample_rate)
             (loop_body ffmpeg lyrics2 audio_dir lyrics_dir output_dir
                tags_arg recaption_arg sample_rate)); [done|].
  intros [w' records] name Hn. unfold loop_body.
  rewrite Hagree; [done | |];
    unfold audio_files in Hn; rewrite merge_sort_Permutation in Hn;
    by apply list_elem_of_filter in Hn as [? ?].
Qed.

End InputFacts.

(** ** The builder's command line, end to end *)

Module MainFacts.
Import Builder BuilderFacts TagJoin.

(** X15.  Every record that [main] persists carries the tag list parsed
    from the [--tags] string, so each of its tags is clean: not empty,
    without whitespace at either end and without a comma. *)
Theorem main_records_tags (ffmpeg : transcoder) (listing : list pystr)
    (lyrics : gmap pystr pystr) (a : args) (w w' : world)
    (recs : list record) (r : record) :
  main ffmpeg listing lyrics a w = (w', inr tt) →
  datasets w' !! a_output_dir a = Some recs →
  r ∈ recs →
  tags r = parse_tags (a_tags a) ∧ Forall clean_tag (tags r).
Proof.
  unfold main. intros Hb Hd Hr.
  destruct (build_saved _ _ _ _ _ _ _ _ _ _ _ _ Hb) as [Hs _].
  rewrite Hs in Hd. injection Hd as <-.
  apply scan_record in Hr as (name & content & -> & _).
  simpl. split; [done | apply parse_tags_clean].
Qed.

End MainFacts.

(** ** Further runs on concrete directories *)

Module MoreExamples.
Import Builder BuilderFacts Examples.

Definition abc_listing : list pystr := [py "b.mp3"; py "a.mp3"; py "c.mp3"].

(** The scenario of the specification, counted: one record, one line. *)
Example song2_accounted :
  let w' := (scan always_ok [py "song1.mp3"; py "song2.mp3"]
               (texts [(py "song1.txt", py "hello world")]) in_dir ly_dir
               out_dir [py "pop"] None (py ".mp3") 48000 w0).1 in
  problems (new_events w0 w')
  = [Print (py "[skip] missing lyrics file for song2.mp3")].
Proof. by vm_compute. Qed.

Lemma build_dataset_outcome_witness :
  last (trace (run always_ok abc_listing abc_lyrics w0).1)
  = Some (Print (py "Saved dataset with 3 items to /out")).
Proof.
  destruct (build_dataset_outcome always_ok abc_listing abc_lyrics in_dir
              ly_dir out_dir [py "pop"] None (py ".mp3") 48000 w0)
    as (_ & _ & H).
  destruct H as (_ & _ & _ & H); [by vm_compute|].
  etrans; [exact H|]. by vm_compute.
Defined.

Lemma writes_stay_under_output_dir_witness :
  target_of out_dir (py "a") ∈ paths w0
  ∨ target_of out_dir (py "a") ∈ ancestors (converted_dir out_dir)
  ∨ ∃ name, name ∈ abc_listing ∧ endswith name (py ".mp3") = true ∧
            target_of out_dir (py "a") = target_of out_dir (stem name).
Proof.
  destruct (writes_stay_under_output_dir always_ok abc_listing abc_lyrics
              in_dir ly_dir out_dir [py "pop"] None (py ".mp3") 48000 w0)
    as [_ H].
  apply H. by_evaluation.
Defined.

Lemma transcoder_commands_witness :
  ∃ name,
    name ∈ [py "a.mp3"] ∧ endswith name (py ".mp3") = true ∧
    is_Some (abc_lyrics !! lyrics_name (stem name)) ∧
    (target_of out_dir (stem name) ∉ paths w0) ∧
    [py "ffmpeg"; py "-y"; py "-i"; py "/in/a.mp3"; py "-ar"; py "48000";
     py "-ac"; py "2"; py "/out/converted_audio/a.wav"]
    = [py "ffmpeg"; py "-y"; py "-i"; path_str (child in_dir name);
       py "-ar"; str_of_int 48000; py "-ac"; py "2";
       path_str (target_of out_dir (stem name))].
Proof.
  apply (transcoder_commands always_ok [py "a.mp3"] abc_lyrics in_dir ly_dir
           out_dir [py "pop"] None (py ".mp3") 48000 w0).
  vm_compute. left.
Defined.

Lemma record_well_formed_witness :
  tags a_row = [py "pop"] ∧
  filename a_row = path_str (target_of out_dir (keys a_row)) ∧
  norm_lyrics a_row ≠ [] ∧
  strip (norm_lyrics a_row) = norm_lyrics a_row.
Proof.
  destruct (record_well_formed always_ok abc_listing abc_lyrics in_dir ly_dir
              out_dir [py "pop"] None (py ".mp3") 48000 w0 a_row)
    as (H1 & H2 & H3 & H4 & _).
  - vm_compute. left.
  - split_and!; assumption.
Defined.

Lemma scan_is_filter_map_witness :
  gathered (fails_on (py "x.mp3") true) [py "y.mp3"; py "x.mp3"] xy_lyrics w0
  = omap (λ name,
            yields (fails_on (py "x.mp3") true) xy_lyrics in_dir out_dir
              [py "pop"] None 48000 name w0)
      (audio_files [py "y.mp3"; py "x.mp3"] (py ".mp3")).
Proof.
  apply (scan_is_filter_map (fails_on (py "x.mp3") true)
           [py "y.mp3"; py "x.mp3"] xy_lyrics in_dir ly_dir out_dir
           [py "pop"] None (py ".mp3") 48000 w0).
  by_evaluation.
Defined.


Lemma tags_round_trip_witness :
  parse_tags (join [comma] [py "pop"; py "slow tempo"])
  = [py "pop"; py "slow tempo"].
Proof.
  destruct (TagJoin.tags_round_trip [py "pop"; py "slow tempo"] []) as [H _].
  apply H. repeat constructor; try (by vm_compute); by_evaluation.
Defined.

Lemma only_paired_transcripts_read_witness :
  run always_ok [py "a.mp3"] (<[py "zzz.txt" := py "stray"]> abc_lyrics) w0
  = run always_ok [py "a.mp3"] abc_lyrics w0.
Proof.
  apply (InputFacts.only_paired_transcripts_read always_ok [py "a.mp3"]
           (<[py "zzz.txt" := py "stray"]> abc_lyrics) abc_lyrics in_dir
           ly_dir out_dir [py "pop"] None (py ".mp3") 48000 w0).
  intros name Hn%list_elem_of_singleton _. subst name. by vm_compute.
Defined.

Definition abc_args : args :=
  {| a_audio_dir := in_dir; a_lyrics_dir := ly_dir; a_output_dir := out_dir;
     a_tags := py " pop, ,slow tempo,"; a_recaption := None;
     a_audio_ext := default_audio_ext; a_sample_rate := default_sample_rate |}.

Definition abc_main_row : record :=
  {| keys := py "a";
     filename := py "/out/converted_audio/a.wav";
     tags := [py "pop"; py "slow tempo"];
     norm_lyrics := py "la la";
     recaption := None |}.

Lemma main_records_tags_witness :
  tags abc_main_row = parse_tags (py " pop, ,slow tempo,") ∧
  Forall TagJoin.clean_tag (tags abc_main_row).
Proof.
  set (r := main always_ok abc_listing abc_lyrics abc_args w0).
  apply (MainFacts.main_records_tags always_ok abc_listing abc_lyrics
           abc_args w0 r.1
           (scan always_ok abc_listing abc_lyrics in_dir ly_dir out_dir
              (parse_tags (py " pop, ,slow tempo,")) None (py ".mp3") 48000
              w0).2 abc_main_row).
  - change (r = (r.1, inr tt)). rewrite (surjective_pairing r) at 1.
    f_equal; by vm_compute.
  - by vm_compute.
  - vm_compute. left.
Defined.

End MoreExamples.
